(** * Problem Details (RFC 7807) helpers: a shallow embedding of [src/index.ts]

    The library builds immutable [Problem] records.  Its only non-trivial
    behaviour is how the [extensions] member is produced: object spreads
    ([{ ...x }]) allocate new JavaScript objects and copy the own enumerable
    properties of existing ones.  Objects are therefore modelled in an
    explicit store, so that copying and aliasing are visible.  The store
    first holds plain objects, with data properties only; the module
    [Accessors] embeds the library again over objects that can have accessor
    properties, whose getters a spread runs, and the two embeddings agree on
    plain objects ([agree_run]). *)

From Stdlib Require Import ZArith.
From stdpp Require Import gmap strings list fin_maps pretty.

Local Open Scope Z_scope.
Local Open Scope string_scope.
Local Open Scope list_scope.

(** ** JavaScript values and the object store *)

(** An object reference: the index of its cell in the store. *)
Definition loc := nat.

(** Values of type [unknown].  Objects and arrays are references.  The
    library never inspects a value, it only stores and copies them; number
    payloads are the integer-valued ones. *)
Inductive value : Type :=
  | VUndefined
  | VNull
  | VBool (b : bool)
  | VNum (n : Z)
  | VStr (s : string)
  | VRef (l : loc).

(** A store cell: a plain object with its own enumerable string-keyed data
    properties, or an array with its elements. *)
Inductive cell : Type :=
  | CRecord (props : gmap string value)
  | CArray (elems : list value).

(** The store grows at its end; a cell is never removed. *)
Abbreviation heap := (list cell).

#[global] Instance value_eq_dec : EqDecision value.
Proof. solve_decision. Defined.

#[global] Instance cell_eq_dec : EqDecision cell.
Proof. solve_decision. Defined.

(** The own enumerable string-keyed properties of an object, as a spread
    reads them.  Those of an array are its elements under their indices. *)
Definition own_props (c : cell) : gmap string value :=
  match c with
  | CRecord ps => ps
  | CArray xs => list_to_map (imap (λ (i : nat) v, (pretty i, v)) xs)
  end.

(** ** Store-passing computations

    A computation reads and extends the store.  It has no result only when it
    dereferences a reference that the store does not hold, which no
    JavaScript program can do. *)
Definition M (A : Type) : Type := heap → option (A * heap).

#[global] Instance M_ret : MRet M := λ A a h, Some (a, h).

#[global] Instance M_bind : MBind M := λ A B f m h,
  match m h with
  | Some (a, h') => f a h'
  | None => None
  end.

#[global] Instance M_fmap : FMap M := λ A B f m h,
  match m h with
  | Some (a, h') => Some (f a, h')
  | None => None
  end.

(** Allocation of a new object: the next free reference. *)
Definition alloc (c : cell) : M loc := λ h, Some (length h, h ++ [c]).

(** Reading the own properties of the object behind a reference. *)
Definition own_properties (l : loc) : M (gmap string value) := λ h,
  match h !! l with
  | Some c => Some (own_props c, h)
  | None => None
  end.

(** [{ ...target, ...source }] on property maps: every own property of
    [source] is defined on [target] in turn, replacing the value of a key
    that [target] already has. *)
Definition copy_data_properties (source target : gmap string value)
  : gmap string value :=
  map_fold (λ k v acc, <[k:=v]> acc) target source.

(** The object literal [{ ...x }]. *)
Definition spread_copy (x : loc) : M loc :=
  ps ← own_properties x;
  alloc (CRecord (copy_data_properties ps ∅)).

(** ** The optional-value abstraction *)

(** Modelled from the spec: [Maybe], [some], [none] and [match] are imported
    from the package [@pickle-packs/nads/maybe], which is not part of the
    sources.  The spec describes it as a two-variant present/absent wrapper
    with a [match]-style reducer that takes a present-handler and an
    absent-default. *)
Inductive Maybe (A : Type) : Type :=
  | some (a : A)
  | none.
Arguments some {A} a.
Arguments none {A}.

(** Modelled from the spec: [match(maybe, handler, default)]; the default is
    a value, evaluated by the caller before the call. *)
Definition match_ {A B : Type} (m : Maybe A) (handler : A → B) (default : B) : B :=
  match m with
  | some x => handler x
  | none => default
  end.

(** ** The library *)

(** [statusCodes], the constant table at the end of the source. *)
Module statusCodes.
Definition badRequest : Z := 400.
Definition conflict : Z := 409.
Definition forbidden : Z := 403.
Definition gone : Z := 410.
Definition internalServerError : Z := 500.
Definition methodNotAllowed : Z := 405.
Definition notAcceptable : Z := 406.
Definition notFound : Z := 404.
Definition notImplemented : Z := 501.
Definition paymentRequired : Z := 402.
Definition preconditionFailed : Z := 412.
Definition preconditionRequired : Z := 428.
Definition requestTimeout : Z := 408.
Definition serviceUnavailable : Z := 503.
Definition tooManyRequests : Z := 429.
Definition unauthorized : Z := 401.
Definition unavailableForLegalReasons : Z := 451.
Definition unprocessableContent : Z := 422.
Definition unsupportedMediaType : Z := 415.
End statusCodes.

Definition contentType : string := "application/problem+json; charset=utf-8".

Definition extensionsErrorKey : string := "errors".

(** The [Problem] envelope.  [extensions] is [undefined] ([None]) or a
    reference to an object. *)
Record Problem : Type := mkProblem {
  detail : string;
  extensions : option loc;
  instance : string;
  status : Z;
  title : string;
  type : string;
}.

Definition getExtensionsOrEmpty (maybeExtensions : Maybe loc) : M loc :=
  empty ← alloc (CRecord ∅);
  match_ maybeExtensions (λ x, spread_copy x) (mret empty).

Definition resolveExtensions (maybeExtensions : Maybe loc) : M (option loc) :=
  match_ maybeExtensions (λ x, Some <$> spread_copy x) (mret None).

Definition buildProblem (status : Z) (title type instance detail : string)
    (maybeExtensions : Maybe loc) : M Problem :=
  ext ← resolveExtensions maybeExtensions;
  mret {| detail := detail;
          extensions := ext;
          instance := instance;
          status := status;
          title := title;
          type := type |}.

(** The object literal [{ [extensionsErrorKey]: errors,
    ...getExtensionsOrEmpty(maybeExtensions) }] that each of the four
    constructors with field errors binds to its local constant
    [extensionsWithErrors]: the spread argument is evaluated, its own
    properties are laid over the [errors] entry, and the result is a new
    object.  A reference is not observable as a number, so the cell is
    allocated once its properties are known. *)
Definition extensionsWithErrors (errors : loc) (maybeExtensions : Maybe loc)
  : M loc :=
  rest ← getExtensionsOrEmpty maybeExtensions;
  ps ← own_properties rest;
  alloc (CRecord (copy_data_properties ps {[ extensionsErrorKey := VRef errors ]})).

Definition badRequest (instance type detail : string) (errors : loc)
    (maybeExtensions : Maybe loc) : M Problem :=
  ext ← extensionsWithErrors errors maybeExtensions;
  buildProblem statusCodes.badRequest "Bad Request" type instance detail (some ext).

Definition conflict (instance type detail : string)
    (maybeExtensions : Maybe loc) : M Problem :=
  buildProblem statusCodes.conflict "Conflict" type instance detail
    maybeExtensions.

Definition forbidden (instance type detail : string)
    (maybeExtensions : Maybe loc) : M Problem :=
  buildProblem statusCodes.forbidden "Forbidden" type instance detail
    maybeExtensions.

Definition gone (instance type detail : string)
    (maybeExtensions : Maybe loc) : M Problem :=
  buildProblem statusCodes.gone "Gone" type instance detail
    maybeExtensions.

Definition internalServerError (instance type detail : string) (errors : loc)
    (maybeExtensions : Maybe loc) : M Problem :=
  ext ← extensionsWithErrors errors maybeExtensions;
  buildProblem statusCodes.internalServerError "Internal Server Error" type instance detail (some ext).

Definition methodNotAllowed (instance type detail : string)
    (maybeExtensions : Maybe loc) : M Problem :=
  buildProblem statusCodes.methodNotAllowed "Method Not Allowed" type instance detail
    maybeExtensions.

Definition notAcceptable (instance type detail : string)
    (maybeExtensions : Maybe loc) : M Problem :=
  buildProblem statusCodes.notAcceptable "Not Acceptable" type instance detail
    maybeExtensions.

Definition notFound (instance type detail : string)
    (maybeExtensions : Maybe loc) : M Problem :=
  buildProblem statusCodes.notFound "Not Found" type instance detail
    maybeExtensions.

Definition notImplemented (instance type detail : string)
    (maybeExtensions : Maybe loc) : M Problem :=
  buildProblem statusCodes.notImplemented "Not Implemented" type instance detail
    maybeExtensions.

Definition paymentRequired (instance type detail : string)
    (maybeExtensions : Maybe loc) : M Problem :=
  buildProblem statusCodes.paymentRequired "Payment Required" type instance detail
    maybeExtensions.

Definition preconditionFailed (instance type detail : string) (errors : loc)
    (maybeExtensions : Maybe loc) : M Problem :=
  ext ← extensionsWithErrors errors maybeExtensions;
  buildProblem statusCodes.preconditionFailed "Precondition Failed" type instance detail (some ext).

Definition preconditionRequired (instance type detail : string)
    (maybeExtensions : Maybe loc) : M Problem :=
  buildProblem statusCodes.preconditionRequired "Precondition Required" type instance detail
    maybeExtensions.

Definition requestTimeout (instance type detail : string)
    (maybeExtensions : Maybe loc) : M Problem :=
  buildProblem statusCodes.requestTimeout "Request Timeout" type instance detail
    maybeExtensions.

Definition serviceUnavailable (instance type detail : string)
    (maybeExtensions : Maybe loc) : M Problem :=
  buildProblem statusCodes.serviceUnavailable "Service Unavailable" type instance detail
    maybeExtensions.

Definition tooManyRequests (instance type detail : string)
    (maybeExtensions : Maybe loc) : M Problem :=
  buildProblem statusCodes.tooManyRequests "Too Many Requests" type instance detail
    maybeExtensions.

Definition unauthorized (instance type detail : string)
    (maybeExtensions : Maybe loc) : M Problem :=
  buildProblem statusCodes.unauthorized "Unauthorized" type instance detail
    maybeExtensions.

Definition unavailableForLegalReasons (instance type detail : string)
    (maybeExtensions : Maybe loc) : M Problem :=
  buildProblem statusCodes.unavailableForLegalReasons "Unavailable For Legal Reasons" type instance detail
    maybeExtensions.

Definition unprocessableContent (instance type detail : string) (errors : loc)
    (maybeExtensions : Maybe loc) : M Problem :=
  ext ← extensionsWithErrors errors maybeExtensions;
  buildProblem statusCodes.unprocessableContent "Unprocessable Content" type instance detail (some ext).

Definition unsupportedMediaType (instance type detail : string)
    (maybeExtensions : Maybe loc) : M Problem :=
  buildProblem statusCodes.unsupportedMediaType "Unsupported Media Type" type instance detail
    maybeExtensions.

(** ** The constructors as one family

    The nineteen exported constructors, split as the source splits them: four
    take a field-errors map, fifteen do not. *)
Inductive ErrorsConstructor : Type :=
  | BadRequest
  | InternalServerError
  | PreconditionFailed
  | UnprocessableContent.

Inductive PlainConstructor : Type :=
  | Conflict
  | Forbidden
  | Gone
  | MethodNotAllowed
  | NotAcceptable
  | NotFound
  | NotImplemented
  | PaymentRequired
  | PreconditionRequired
  | RequestTimeout
  | ServiceUnavailable
  | TooManyRequests
  | Unauthorized
  | UnavailableForLegalReasons
  | UnsupportedMediaType.

Definition errors_constructor (c : ErrorsConstructor)
  : string → string → string → loc → Maybe loc → M Problem :=
  match c with
  | BadRequest => badRequest
  | InternalServerError => internalServerError
  | PreconditionFailed => preconditionFailed
  | UnprocessableContent => unprocessableContent
  end.

Definition plain_constructor (c : PlainConstructor)
  : string → string → string → Maybe loc → M Problem :=
  match c with
  | Conflict => conflict
  | Forbidden => forbidden
  | Gone => gone
  | MethodNotAllowed => methodNotAllowed
  | NotAcceptable => notAcceptable
  | NotFound => notFound
  | NotImplemented => notImplemented
  | PaymentRequired => paymentRequired
  | PreconditionRequired => preconditionRequired
  | RequestTimeout => requestTimeout
  | ServiceUnavailable => serviceUnavailable
  | TooManyRequests => tooManyRequests
  | Unauthorized => unauthorized
  | UnavailableForLegalReasons => unavailableForLegalReasons
  | UnsupportedMediaType => unsupportedMediaType
  end.

(** A call of an exported constructor with its arguments. *)
Inductive Call : Type :=
  | CallWithErrors (c : ErrorsConstructor) (instance type detail : string)
      (errors : loc) (maybeExtensions : Maybe loc)
  | CallPlain (c : PlainConstructor) (instance type detail : string)
      (maybeExtensions : Maybe loc).

Definition run (call : Call) : M Problem :=
  match call with
  | CallWithErrors c i t d e mb => errors_constructor c i t d e mb
  | CallPlain c i t d mb => plain_constructor c i t d mb
  end.

Definition call_instance (call : Call) : string :=
  match call with CallWithErrors _ i _ _ _ _ | CallPlain _ i _ _ _ => i end.

Definition call_type (call : Call) : string :=
  match call with CallWithErrors _ _ t _ _ _ | CallPlain _ _ t _ _ => t end.

Definition call_detail (call : Call) : string :=
  match call with CallWithErrors _ _ _ d _ _ | CallPlain _ _ _ d _ => d end.

(** The caller's extension argument. *)
Definition call_bag (call : Call) : Maybe loc :=
  match call with CallWithErrors _ _ _ _ _ mb | CallPlain _ _ _ _ mb => mb end.

(** Whether the call supplies a field-errors map. *)
Definition errors_supplied (call : Call) : Prop :=
  match call with CallWithErrors _ _ _ _ _ _ => True | CallPlain _ _ _ _ _ => False end.

Definition bag_present (call : Call) : Prop :=
  match call_bag call with some _ => True | none => False end.

(** The name/status/category table of section 6 of the specification. *)
Definition errors_pair (c : ErrorsConstructor) : Z * string :=
  match c with
  | BadRequest => (400, "Bad Request")
  | InternalServerError => (500, "Internal Server Error")
  | PreconditionFailed => (412, "Precondition Failed")
  | UnprocessableContent => (422, "Unprocessable Content")
  end.

Definition plain_pair (c : PlainConstructor) : Z * string :=
  match c with
  | Conflict => (409, "Conflict")
  | Forbidden => (403, "Forbidden")
  | Gone => (410, "Gone")
  | MethodNotAllowed => (405, "Method Not Allowed")
  | NotAcceptable => (406, "Not Acceptable")
  | NotFound => (404, "Not Found")
  | NotImplemented => (501, "Not Implemented")
  | PaymentRequired => (402, "Payment Required")
  | PreconditionRequired => (428, "Precondition Required")
  | RequestTimeout => (408, "Request Timeout")
  | ServiceUnavailable => (503, "Service Unavailable")
  | TooManyRequests => (429, "Too Many Requests")
  | Unauthorized => (401, "Unauthorized")
  | UnavailableForLegalReasons => (451, "Unavailable For Legal Reasons")
  | UnsupportedMediaType => (415, "Unsupported Media Type")
  end.

Definition fixed_pair (call : Call) : Z * string :=
  match call with
  | CallWithErrors c _ _ _ _ _ => errors_pair c
  | CallPlain c _ _ _ _ => plain_pair c
  end.

(** ** Well-typed arguments and observations *)

(** An extension argument is well typed in a store when, if present, it
    refers to an object of that store. *)
Definition bag_allocated (h : heap) (mb : Maybe loc) : Prop :=
  match mb with
  | some b => is_Some (h !! b)
  | none => True
  end.

(** The caller's extension keys and values; none when the argument is
    absent. *)
Definition bag_props (h : heap) (mb : Maybe loc) : gmap string value :=
  match mb with
  | some b => from_option own_props ∅ (h !! b)
  | none => ∅
  end.

(** [extensions] of the record is an object that holds exactly the mapping
    [m]. *)
Definition extensions_is (h : heap) (p : Problem) (m : gmap string value) : Prop :=
  ∃ l, extensions p = Some l ∧ h !! l = Some (CRecord m).

(** What a call is expected to leave in [extensions]: nothing, or an object
    with the given mapping. *)
Definition expected_extensions (h : heap) (call : Call)
  : option (gmap string value) :=
  match call with
  | CallWithErrors _ _ _ _ e mb =>
      Some (bag_props h mb ∪ {[ extensionsErrorKey := VRef e ]})
  | CallPlain _ _ _ _ (some b) => Some (bag_props h (some b))
  | CallPlain _ _ _ _ none => None
  end.

(** The result [p] and final store [h'] of a call made in store [h]. *)
Definition outcome (call : Call) (h : heap) (p : Problem) (h' : heap) : Prop :=
  h `prefix_of` h'
  ∧ detail p = call_detail call
  ∧ instance p = call_instance call
  ∧ type p = call_type call
  ∧ status p = (fixed_pair call).1
  ∧ title p = (fixed_pair call).2
  ∧ match expected_extensions h call with
    | Some m =>
        ∃ l, extensions p = Some l ∧ (length h ≤ l)%nat
             ∧ h' !! l = Some (CRecord m)
    | None => extensions p = None
    end.

(** ** Structural view of a value

    The tree that a value denotes in a store, as a serializer would walk it,
    to a bounded depth. *)
#[warning="-register-all"]
Inductive json : Type :=
  | JUndefined
  | JNull
  | JBool (b : bool)
  | JNum (n : Z)
  | JStr (s : string)
  | JArr (xs : list json)
  | JObj (ps : gmap string json).

Definition all_some {A : Type} (m : gmap string (option A))
  : option (gmap string A) :=
  if decide (map_Forall (λ _ o, is_Some o) m) then Some (omap id m) else None.

Fixpoint reify (fuel : nat) (h : heap) (v : value) : option json :=
  match v with
  | VUndefined => Some JUndefined
  | VNull => Some JNull
  | VBool b => Some (JBool b)
  | VNum n => Some (JNum n)
  | VStr s => Some (JStr s)
  | VRef l =>
    match fuel with
    | O => None
    | S n =>
      match h !! l with
      | Some (CRecord ps) => JObj <$> all_some (reify n h <$> ps)
      | Some (CArray xs) => JArr <$> mapM (reify n h) xs
      | None => None
      end
    end
  end.

(** The structural view of the record's [extensions] member. *)
Definition extensions_json (fuel : nat) (h : heap) (p : Problem) : option json :=
  match extensions p with
  | Some l => reify fuel h (VRef l)
  | None => Some JUndefined
  end.

(** A call whose extension argument is present and has at least one key. *)
Definition bag_nonempty (h : heap) (call : Call) : Prop :=
  ∃ b bag, call_bag call = some b ∧ h !! b = Some bag ∧ own_props bag ≠ ∅.

(** The field-errors map of the bad-input scenario,
    [{"user.email": ["must be an email"]}]. *)
Definition scenario_errors : json :=
  JObj {[ "user.email" := JArr [JStr "must be an email"] ]}.

(** A store that holds that map at reference [1]. *)
Definition scenario_heap : heap :=
  [CArray [VStr "must be an email"]; CRecord {[ "user.email" := VRef 0%nat ]}].

(** A store for the merge example: the field-errors map
    [{"a.b": ["m1","m2"]}] at reference [1] and the bag [{"x": 1}] at
    reference [2]. *)
Definition merge_heap : heap :=
  [CArray [VStr "m1"; VStr "m2"];
   CRecord {[ "a.b" := VRef 0%nat ]};
   CRecord {[ "x" := VNum 1 ]}].

(** A store for the collision example: an empty field-errors map at
    reference [0] and the bag [{"errors": "mine"}] at reference [1]. *)
Definition collision_heap : heap :=
  [CRecord ∅; CRecord {[ "errors" := VStr "mine" ]}].

(** The structural view of the caller's extension argument, as an object:
    no key when the argument is absent. *)
Definition bag_json (fuel : nat) (h : heap) (mb : Maybe loc)
  : option (gmap string json) :=
  match mb with
  | some b =>
      match reify fuel h (VRef b) with
      | Some (JObj jb) => Some jb
      | _ => None
      end
  | none => Some ∅
  end.

(** ** Objects with accessor properties

    The spread [{ ...x }] reads every own enumerable property of [x] with a
    [[Get]]: a data property gives its value, an accessor property runs its
    getter, which is code of the caller: it can throw, and it can write to
    the store.  The cells above hold data properties only.  This module
    embeds the same library over a store whose objects can also have
    accessor properties, for the statements that depend on what a getter
    does. *)
Module Accessors.

(** An own enumerable property: a value, or a getter, named by an index
    into the caller's code. *)
Inductive property : Type :=
  | Data (v : value)
  | Getter (g : nat).

(** An object: a cell of data properties as before, or an object with
    accessor properties, given by its own enumerable string-keyed
    properties in the order in which the object enumerates them, each key
    once. *)
Inductive object : Type :=
  | Plain (c : cell)
  | WithAccessors (props : list (string * property)).

Abbreviation store := (list object).

(** How an evaluation ends: with a value, or with a thrown exception. *)
Inductive completion (A : Type) : Type :=
  | Returned (a : A) (s : store)
  | Threw (exception : value) (s : store).
Arguments Returned {A} a s.
Arguments Threw {A} exception s.


(** Computations on the store that can throw.  As before, there is no
    completion only when a reference is dereferenced that the store does not
    hold. *)
Definition E (A : Type) : Type := store → option (completion A).

#[global] Instance E_ret : MRet E := λ A a s, Some (Returned a s).

#[global] Instance E_bind : MBind E := λ A B f m s,
  match m s with
  | Some (Returned a s') => f a s'
  | Some (Threw e s') => Some (Threw e s')
  | None => None
  end.

#[global] Instance E_fmap : FMap E := λ A B f m s,
  match m s with
  | Some (Returned a s') => Some (Returned (f a) s')
  | Some (Threw e s') => Some (Threw e s')
  | None => None
  end.

Definition alloc (c : cell) : E loc := λ s,
  Some (Returned (length s) (s ++ [Plain c])).

(** The own enumerable string keys of an object, in enumeration order.  No
    code runs when a plain object is read, so the order of its keys is not
    observable. *)
Definition own_keys (o : object) : list string :=
  match o with
  | Plain c => (map_to_list (own_props c)).*1
  | WithAccessors props => props.*1
  end.

(** [[GetOwnProperty]]. *)
Definition get_own_property (o : object) (k : string) : option property :=
  match o with
  | Plain c => Data <$> own_props c !! k
  | WithAccessors props => (list_to_map props : gmap string property) !! k
  end.

Section Library.

(** The code of the caller's getters: getter [g], called with receiver
    [this] in a store, returns a value or throws, and leaves a store.  The
    library's own new objects are not reachable from the caller's code. *)
Variable getter_code : nat → loc → store → completion value.

(** The reads of a spread: the keys are fixed at the start; each key that is
    still an own property of [x] when its turn comes is read, a getter being
    called with [x] as receiver; an exception ends the spread. *)
Fixpoint get_properties (keys : list string) (x : loc)
    (got : gmap string value) : E (gmap string value) :=
  match keys with
  | [] => mret got
  | k :: keys => λ s,
      match s !! x with
      | None => None
      | Some o =>
          match get_own_property o k with
          | None => get_properties keys x got s
          | Some (Data v) => get_properties keys x (<[k:=v]> got) s
          | Some (Getter g) =>
              match getter_code g x s with
              | Returned v s' => get_properties keys x (<[k:=v]> got) s'
              | Threw e s' => Some (Threw e s')
              end
          end
      end
  end.

(** Reading the own properties of the object behind a reference. *)
Definition own_properties (x : loc) : E (gmap string value) := λ s,
  match s !! x with
  | Some o => get_properties (own_keys o) x ∅ s
  | None => None
  end.

(** The object literal [{ ...x }]. *)
Definition spread_copy (x : loc) : E loc :=
  ps ← own_properties x;
  alloc (CRecord (copy_data_properties ps ∅)).

Definition getExtensionsOrEmpty (maybeExtensions : Maybe loc) : E loc :=
  empty ← alloc (CRecord ∅);
  match_ maybeExtensions (λ x, spread_copy x) (mret empty).

Definition resolveExtensions (maybeExtensions : Maybe loc) : E (option loc) :=
  match_ maybeExtensions (λ x, Some <$> spread_copy x) (mret None).

Definition buildProblem (status : Z) (title type instance detail : string)
    (maybeExtensions : Maybe loc) : E Problem :=
  ext ← resolveExtensions maybeExtensions;
  mret {| detail := detail;
          extensions := ext;
          instance := instance;
          status := status;
          title := title;
          type := type |}.

Definition extensionsWithErrors (errors : loc) (maybeExtensions : Maybe loc)
  : E loc :=
  rest ← getExtensionsOrEmpty maybeExtensions;
  ps ← own_properties rest;
  alloc (CRecord (copy_data_properties ps {[ extensionsErrorKey := VRef errors ]})).

Definition badRequest (instance type detail : string) (errors : loc)
    (maybeExtensions : Maybe loc) : E Problem :=
  ext ← extensionsWithErrors errors maybeExtensions;
  buildProblem statusCodes.badRequest "Bad Request" type instance detail (some ext).

Definition conflict (instance type detail : string)
    (maybeExtensions : Maybe loc) : E Problem :=
  buildProblem statusCodes.conflict "Conflict" type instance detail
    maybeExtensions.

Definition forbidden (instance type detail : string)
    (maybeExtensions : Maybe loc) : E Problem :=
  buildProblem statusCodes.forbidden "Forbidden" type instance detail
    maybeExtensions.

Definition gone (instance type detail : string)
    (maybeExtensions : Maybe loc) : E Problem :=
  buildProblem statusCodes.gone "Gone" type instance detail
    maybeExtensions.

Definition internalServerError (instance type detail : string) (errors : loc)
    (maybeExtensions : Maybe loc) : E Problem :=
  ext ← extensionsWithErrors errors maybeExtensions;
  buildProblem statusCodes.internalServerError "Internal Server Error" type instance detail (some ext).

Definition methodNotAllowed (instance type detail : string)
    (maybeExtensions : Maybe loc) : E Problem :=
  buildProblem statusCodes.methodNotAllowed "Method Not Allowed" type instance detail
    maybeExtensions.

Definition notAcceptable (instance type detail : string)
    (maybeExtensions : Maybe loc) : E Problem :=
  buildProblem statusCodes.notAcceptable "Not Acceptable" type instance detail
    maybeExtensions.

Definition notFound (instance type detail : string)
    (maybeExtensions : Maybe loc) : E Problem :=
  buildProblem statusCodes.notFound "Not Found" type instance detail
    maybeExtensions.

Definition notImplemented (instance type detail : string)
    (maybeExtensions : Maybe loc) : E Problem :=
  buildProblem statusCodes.notImplemented "Not Implemented" type instance detail
    maybeExtensions.

Definition paymentRequired (instance type detail : string)
    (maybeExtensions : Maybe loc) : E Problem :=
  buildProblem statusCodes.paymentRequired "Payment Required" type instance detail
    maybeExtensions.

Definition preconditionFailed (instance type detail : string) (errors : loc)
    (maybeExtensions : Maybe loc) : E Problem :=
  ext ← extensionsWithErrors errors maybeExtensions;
  buildProblem statusCodes.preconditionFailed "Precondition Failed" type instance detail (some ext).

Definition preconditionRequired (instance type detail : string)
    (maybeExtensions : Maybe loc) : E Problem :=
  buildProblem statusCodes.preconditionRequired "Precondition Required" type instance detail
    maybeExtensions.

Definition requestTimeout (instance type detail : string)
    (maybeExtensions : Maybe loc) : E Problem :=
  buildProblem statusCodes.requestTimeout "Request Timeout" type instance detail
    maybeExtensions.

Definition serviceUnavailable (instance type detail : string)
    (maybeExtensions : Maybe loc) : E Problem :=
  buildProblem statusCodes.serviceUnavailable "Service Unavailable" type instance detail
    maybeExtensions.

Definition tooManyRequests (instance type detail : string)
    (maybeExtensions : Maybe loc) : E Problem :=
  buildProblem statusCodes.tooManyRequests "Too Many Requests" type instance detail
    maybeExtensions.

Definition unauthorized (instance type detail : string)
    (maybeExtensions : Maybe loc) : E Problem :=
  buildProblem statusCodes.unauthorized "Unauthorized" type instance detail
    maybeExtensions.

Definition unavailableForLegalReasons (instance type detail : string)
    (maybeExtensions : Maybe loc) : E Problem :=
  buildProblem statusCodes.unavailableForLegalReasons "Unavailable For Legal Reasons" type instance detail
    maybeExtensions.

Definition unprocessableContent (instance type detail : string) (errors : loc)
    (maybeExtensions : Maybe loc) : E Problem :=
  ext ← extensionsWithErrors errors maybeExtensions;
  buildProblem statusCodes.unprocessableContent "Unprocessable Content" type instance detail (some ext).

Definition unsupportedMediaType (instance type detail : string)
    (maybeExtensions : Maybe loc) : E Problem :=
  buildProblem statusCodes.unsupportedMediaType "Unsupported Media Type" type instance detail
    maybeExtensions.

Definition errors_constructor (c : ErrorsConstructor)
  : string → string → string → loc → Maybe loc → E Problem :=
  match c with
  | BadRequest => badRequest
  | InternalServerError => internalServerError
  | PreconditionFailed => preconditionFailed
  | UnprocessableContent => unprocessableContent
  end.

Definition plain_constructor (c : PlainConstructor)
  : string → string → string → Maybe loc → E Problem :=
  match c with
  | Conflict => conflict
  | Forbidden => forbidden
  | Gone => gone
  | MethodNotAllowed => methodNotAllowed
  | NotAcceptable => notAcceptable
  | NotFound => notFound
  | NotImplemented => notImplemented
  | PaymentRequired => paymentRequired
  | PreconditionRequired => preconditionRequired
  | RequestTimeout => requestTimeout
  | ServiceUnavailable => serviceUnavailable
  | TooManyRequests => tooManyRequests
  | Unauthorized => unauthorized
  | UnavailableForLegalReasons => unavailableForLegalReasons
  | UnsupportedMediaType => unsupportedMediaType
  end.

Definition run (call : Call) : E Problem :=
  match call with
  | CallWithErrors c i t d e mb => errors_constructor c i t d e mb
  | CallPlain c i t d mb => plain_constructor c i t d mb
  end.

End Library.

(** A store of plain objects, as a store of this module. *)
Definition plain_store (h : heap) : store := Plain <$> h.

(** The extension argument, when present, refers to an object of the
    store. *)
Definition bag_allocated (s : store) (mb : Maybe loc) : Prop :=
  match mb with
  | some b => is_Some (s !! b)
  | none => True
  end.



(** A getter that throws the string ["boom"], whatever its receiver. *)
Definition throwing_getter (g : nat) (this : loc) (s : store)
  : completion value :=
  Threw (VStr "boom") s.

End Accessors.

(** ** Reachability in the store *)

(** Walking [v] to depth [fuel] never comes to the object [target]. *)
Fixpoint avoids (fuel : nat) (h : heap) (target : loc) (v : value) : Prop :=
  match v with
  | VRef l =>
      l ≠ target
      ∧ match fuel with
        | O => True
        | S n =>
            match h !! l with
            | Some (CRecord ps) => map_Forall (λ _ w, avoids n h target w) ps
            | Some (CArray xs) => Forall (avoids n h target) xs
            | None => True
            end
        end
  | _ => True
  end.

(** A store with one object, [{"a": 1}], to be passed both as field-errors
    map and as extension bag. *)
Definition shared_heap : heap := [CRecord {[ "a" := VNum 1 ]}].



(** The data-property embedding and the accessor-aware one agree on a
    computation: what the first returns from a store of plain objects, the
    second returns from the same store. *)
Definition agree {A : Type} (m : M A) (e : Accessors.E A) : Prop :=
  ∀ h a h',
    m h = Some (a, h') →
    e (Accessors.plain_store h)
    = Some (Accessors.Returned a (Accessors.plain_store h')).


(** ** The custom lint rules of the ESLint configuration

    The configuration file defines rules as handlers that ESLint calls while
    it walks a syntax tree.  The tree below keeps the node types the handlers
    are registered for, each with the members the handlers read. *)

(** The parent of a function node: its [type] and, when it has one, its
    [kind]. *)
Record parent_node : Type := mkParent {
  node_type : string;
  kind : option string;
}.

(** A function node ([FunctionDeclaration], [FunctionExpression] or
    [ArrowFunctionExpression], the nodes that the selector [:function]
    matches).  [returnType] is the [type] of [fn.returnType.typeAnnotation]
    when the function has a return type annotation. *)
Record function_node : Type := mkFunction {
  fn_id : nat;
  parent : option parent_node;
  returnType : option string;
}.

(** The value of a [Literal]: a string, or something else. *)
Inductive literal_value : Type :=
  | LString (s : string)
  | LOther.

(** The [property] of a member expression.  Of a template literal the rule
    reads the number of expressions and the cooked text of the quasis, which
    can be [null]. *)
Inductive property_node : Type :=
  | Identifier (name : string)
  | Literal (value : literal_value)
  | TemplateLiteral (expressions : nat) (quasis : list (option string))
  | OtherProperty.

Record member_node : Type := mkMember {
  member_id : nat;
  computed : bool;
  property : option property_node;
}.

#[warning="-register-all"]
Inductive ast : Type :=
  | Function (f : function_node) (children : list ast)
  | ReturnStatement (id : nat) (argument : option ast)
  | MemberExpression (m : member_node) (children : list ast)
  | ChainExpression (expression : ast)
  | OtherNode (children : list ast).

(** What [context.report] receives: the node and the message, named after
    the [messageId], with its data. *)
Inductive report : Type :=
  | TooMany (node : nat) (count : nat)
  | ExtraReturn (node : nat)
  | NoBare (node : nat)
  | Deny (node : nat) (display : string).

(** ESLint, which is not part of the sources, walks the tree depth first: a
    handler registered under a node type or selector runs when the walk
    enters a matching node, before its children, and a handler registered
    with [:exit] runs when the walk leaves it, after its children. *)
Fixpoint traverse {S : Type} (enter leave : ast → S → S) (n : ast) (s : S) : S :=
  let s1 := enter n s in
  let s2 :=
    match n with
    | Function _ cs | MemberExpression _ cs | OtherNode cs =>
        foldl (λ acc c, traverse enter leave c acc) s1 cs
    | ReturnStatement _ (Some a) => traverse enter leave a s1
    | ReturnStatement _ None => s1
    | ChainExpression e => traverse enter leave e s1
    end in
  leave n s2.

(** *** [singleExitRule]: the state is the [stack] of the closure and the
    reports made so far. *)
Definition singleExit_enter (n : ast) (st : list nat * list report)
  : list nat * list report :=
  let '(stack, reports) := st in
  match n with
  | Function _ _ => (stack ++ [0%nat], reports)
  | ReturnStatement id _ =>
      if decide (length stack = 0%nat) then st
      else
        let i := (length stack - 1)%nat in
        let stack := alter (λ c, c + 1)%nat i stack in
        if decide (1 < default 0 (stack !! i))%nat
        then (stack, reports ++ [ExtraReturn id])
        else (stack, reports)
  | _ => st
  end.

Definition singleExit_exit (n : ast) (st : list nat * list report)
  : list nat * list report :=
  let '(stack, reports) := st in
  match n with
  | Function f _ =>
      let count := default 0%nat (last stack) in
      let stack := removelast stack in
      if decide (1 < count)%nat
      then (stack, reports ++ [TooMany (fn_id f) count])
      else (stack, reports)
  | _ => st
  end.

Definition singleExit : ast → list nat * list report → list nat * list report :=
  traverse singleExit_enter singleExit_exit.

(** *** [noBareReturnVoid] *)
Definition isVoidFn (fn : function_node) : bool :=
  if match parent fn with
     | Some p =>
         bool_decide (node_type p = "MethodDefinition")
         && bool_decide (kind p = Some "constructor")
     | None => false
     end
  then true
  else
    match returnType fn with
    | Some ann => bool_decide (ann = "TSVoidKeyword")
    | None => false
    end.

Definition noBareReturnVoid_enter (n : ast) (st : list bool * list report)
  : list bool * list report :=
  let '(stack, reports) := st in
  match n with
  | Function f _ => (stack ++ [isVoidFn f], reports)
  | ReturnStatement id argument =>
      if negb (bool_decide (length stack = 0%nat))
         && default false (stack !! (length stack - 1)%nat)
         && negb (bool_decide (is_Some argument))
      then (stack, reports ++ [NoBare id])
      else st
  | _ => st
  end.

Definition noBareReturnVoid_exit (n : ast) (st : list bool * list report)
  : list bool * list report :=
  let '(stack, reports) := st in
  match n with
  | Function _ _ => (removelast stack, reports)
  | _ => st
  end.

Definition noBareReturnVoid
  : ast → list bool * list report → list bool * list report :=
  traverse noBareReturnVoid_enter noBareReturnVoid_exit.

(** *** [noUnderscoreAccessRule] *)
Definition startsWith (s search : string) : bool := String.prefix search s.

Definition checkMember (node : member_node) : list report :=
  match computed node, property node with
  | false, Some (Identifier name) =>
      if startsWith name "_"
      then [Deny (member_id node) ("." +:+ name)]
      else []
  | true, Some (Literal v) =>
      match v with
      | LString s =>
          if startsWith s "_"
          then [Deny (member_id node) ("['" +:+ s +:+ "']")]
          else []
      | LOther => []
      end
  | true, Some (TemplateLiteral 0 quasis) =>
      let cooked := default "" (head quasis ≫= id) in
      if startsWith cooked "_"
      then [Deny (member_id node) ("[`" +:+ cooked +:+ "`]")]
      else []
  | _, _ => []
  end.

Definition noUnderscoreAccess_enter (n : ast) (reports : list report)
  : list report :=
  match n with
  | MemberExpression m _ => reports ++ checkMember m
  | ChainExpression (MemberExpression m _) => reports ++ checkMember m
  | _ => reports
  end.

Definition noUnderscoreAccess : ast → list report → list report :=
  traverse noUnderscoreAccess_enter (λ _ reports, reports).

(** *** What the rules are about *)

(** The return statements of a subtree that belong to the enclosing
    function: those not inside a nested function. *)
Fixpoint direct_returns (n : ast) : nat :=
  match n with
  | Function _ _ => 0
  | ReturnStatement _ (Some a) => S (direct_returns a)
  | ReturnStatement _ None => 1
  | MemberExpression _ cs | OtherNode cs =>
      foldr (λ c acc, direct_returns c + acc)%nat 0%nat cs
  | ChainExpression e => direct_returns e
  end.

Definition direct_returns_list (cs : list ast) : nat :=
  foldr (λ c acc, direct_returns c + acc)%nat 0%nat cs.

(** Every function of the subtree has at most one return statement of its
    own. *)
Fixpoint single_exit (n : ast) : Prop :=
  match n with
  | Function _ cs =>
      foldr (λ c acc, single_exit c ∧ acc) True cs
      ∧ (foldr (λ c acc, direct_returns c + acc)%nat 0%nat cs ≤ 1)%nat
  | ReturnStatement _ (Some a) => single_exit a
  | ReturnStatement _ None => True
  | MemberExpression _ cs | OtherNode cs =>
      foldr (λ c acc, single_exit c ∧ acc) True cs
  | ChainExpression e => single_exit e
  end.

(** The bare [return;] statements of a subtree whose innermost enclosing
    function is void, in source order; [enclosing] tells whether the function
    around the subtree is void. *)
Fixpoint bare_void_returns (enclosing : bool) (n : ast) : list nat :=
  match n with
  | Function f cs =>
      foldr (λ c acc, bare_void_returns (isVoidFn f) c ++ acc) [] cs
  | ReturnStatement id (Some a) => bare_void_returns enclosing a
  | ReturnStatement id None => if enclosing then [id] else []
  | MemberExpression _ cs | OtherNode cs =>
      foldr (λ c acc, bare_void_returns enclosing c ++ acc) [] cs
  | ChainExpression e => bare_void_returns enclosing e
  end.

(** *** Invariants of the walks *)

(** Inside a function whose counter is [k]: the walk of a subtree adds the
    subtree's own returns to the counter and leaves the rest of the stack as
    it was; it is silent exactly when the functions of the subtree have a
    single exit and the returns of the subtree do not take the counter over
    one. *)
Definition singleExit_inside (n : ast) : Prop :=
  ∀ (s : list nat) (k : nat) (reps : list report),
    ∃ rs,
      singleExit n (s ++ [k], reps)
      = (s ++ [(k + direct_returns n)%nat], reps ++ rs)
      ∧ (rs = [] ↔
         single_exit n
         ∧ (direct_returns n = 0%nat ∨ (k + direct_returns n ≤ 1)%nat)).

(** Outside every function: returns are ignored. *)
Definition singleExit_outside (n : ast) : Prop :=
  ∀ reps : list report,
    ∃ rs,
      singleExit n ([], reps) = ([], reps ++ rs)
      ∧ (rs = [] ↔ single_exit n).

(** What [noBareReturnVoid] does on a subtree, in any state. *)
Definition noBareReturnVoid_spec (n : ast) : Prop :=
  ∀ (stack : list bool) (reps : list report),
    noBareReturnVoid n (stack, reps)
    = (stack,
       reps ++ (NoBare <$> bare_void_returns (default false (last stack)) n)).

(** [noUnderscoreAccessRule] only adds reports, the same whatever was
    reported before. *)
Definition noUnderscoreAccess_appends (n : ast) : Prop :=
  ∀ reps : list report,
    noUnderscoreAccess n reps = reps ++ noUnderscoreAccess n [].

(** * Properties *)

(** ** The store operations *)

Lemma copy_data_properties_union (source target : gmap string value) :
  copy_data_properties source target = source ∪ target.
Proof.
  unfold copy_data_properties.
  apply (map_fold_weak_ind (λ r m, r = m ∪ target)).
  - by rewrite (left_id_L ∅ (∪)).
  - intros k v m r _ ->. by rewrite insert_union_l.
Qed.

Lemma copy_data_properties_empty (source : gmap string value) :
  copy_data_properties source ∅ = source.
Proof. by rewrite copy_data_properties_union, (right_id_L ∅ (∪)). Qed.

Lemma bind_run {A B : Type} (m : M A) (f : A → M B) (h h' : heap) (a : A) :
  m h = Some (a, h') → (m ≫= f) h = f a h'.
Proof. intros Hm. unfold mbind, M_bind. by rewrite Hm. Qed.

Lemma fmap_run {A B : Type} (m : M A) (f : A → B) (h h' : heap) (a : A) :
  m h = Some (a, h') → (f <$> m) h = Some (f a, h').
Proof. intros Hm. unfold fmap, M_fmap. by rewrite Hm. Qed.

Lemma own_properties_run (l : loc) (h : heap) (c : cell) :
  h !! l = Some c → own_properties l h = Some (own_props c, h).
Proof. intros Hl. unfold own_properties. by rewrite Hl. Qed.

Lemma lookup_new_cell (h : heap) (c : cell) :
  (h ++ [c]) !! length h = Some c.
Proof. by apply list_lookup_middle. Qed.

Lemma spread_copy_run (x : loc) (h : heap) (c : cell) :
  h !! x = Some c →
  spread_copy x h = Some (length h, h ++ [CRecord (own_props c)]).
Proof.
  intros Hx. unfold spread_copy.
  rewrite (bind_run _ _ _ _ _ (own_properties_run _ _ _ Hx)).
  by rewrite copy_data_properties_empty.
Qed.

(** ** The helpers of the source *)

Lemma resolveExtensions_none (h : heap) :
  resolveExtensions none h = Some (None, h).
Proof. reflexivity. Qed.

Lemma resolveExtensions_some (x : loc) (h : heap) (c : cell) :
  h !! x = Some c →
  resolveExtensions (some x) h
  = Some (Some (length h), h ++ [CRecord (own_props c)]).
Proof.
  intros Hx. unfold resolveExtensions, match_.
  by rewrite (fmap_run _ _ _ _ _ (spread_copy_run _ _ _ Hx)).
Qed.

Lemma getExtensionsOrEmpty_none (h : heap) :
  getExtensionsOrEmpty none h = Some (length h, h ++ [CRecord ∅]).
Proof. reflexivity. Qed.

Lemma getExtensionsOrEmpty_some (x : loc) (h : heap) (c : cell) :
  h !! x = Some c →
  getExtensionsOrEmpty (some x) h
  = Some (S (length h), h ++ [CRecord ∅; CRecord (own_props c)]).
Proof.
  intros Hx. unfold getExtensionsOrEmpty, match_.
  rewrite (bind_run _ _ h (h ++ [CRecord ∅]) (length h)) by reflexivity.
  rewrite (spread_copy_run x _ c) by (by apply lookup_app_l_Some).
  rewrite length_app, <- app_assoc. simpl.
  do 3 f_equal. lia.
Qed.

(** Whatever the extension argument, [getExtensionsOrEmpty] returns a new
    object that holds the caller's keys and values. *)
Lemma getExtensionsOrEmpty_run (mb : Maybe loc) (h : heap) :
  bag_allocated h mb →
  ∃ junk : heap,
    getExtensionsOrEmpty mb h
    = Some (length (h ++ junk), h ++ junk ++ [CRecord (bag_props h mb)]).
Proof.
  destruct mb as [b|]; simpl.
  - intros [c Hb]. exists [CRecord ∅].
    rewrite (getExtensionsOrEmpty_some _ _ _ Hb), Hb, length_app. simpl.
    do 3 f_equal. lia.
  - intros _. exists []. rewrite getExtensionsOrEmpty_none.
    by rewrite (right_id_L [] (++)).
Qed.

Lemma buildProblem_none (s : Z) (ti ty i d : string) (h : heap) :
  buildProblem s ti ty i d none h = Some (mkProblem d None i s ti ty, h).
Proof. reflexivity. Qed.

Lemma buildProblem_some (s : Z) (ti ty i d : string) (x : loc) (h : heap) (c : cell) :
  h !! x = Some c →
  buildProblem s ti ty i d (some x) h
  = Some (mkProblem d (Some (length h)) i s ti ty,
          h ++ [CRecord (own_props c)]).
Proof.
  intros Hx. unfold buildProblem.
  by rewrite (bind_run _ _ _ _ _ (resolveExtensions_some _ _ _ Hx)).
Qed.

Lemma extensionsWithErrors_run (e : loc) (mb : Maybe loc) (h : heap) :
  bag_allocated h mb →
  ∃ junk : heap,
    extensionsWithErrors e mb h
    = Some (length (h ++ junk),
            h ++ junk
              ++ [CRecord (bag_props h mb ∪ {[ extensionsErrorKey := VRef e ]})]).
Proof.
  intros Hb. destruct (getExtensionsOrEmpty_run mb h Hb) as [junk Hg].
  exists (junk ++ [CRecord (bag_props h mb)]).
  unfold extensionsWithErrors.
  rewrite (bind_run _ _ _ _ _ Hg).
  assert (Hl : (h ++ junk ++ [CRecord (bag_props h mb)]) !! length (h ++ junk)
               = Some (CRecord (bag_props h mb))).
  { rewrite app_assoc. apply lookup_new_cell. }
  rewrite (bind_run _ _ _ _ _ (own_properties_run _ _ _ Hl)).
  unfold alloc. rewrite copy_data_properties_union. simpl.
  by rewrite !app_assoc.
Qed.

(** ** The exported constructors *)

Lemma errors_constructor_run (c : ErrorsConstructor) (i t d : string)
    (e : loc) (mb : Maybe loc) (h : heap) :
  bag_allocated h mb →
  ∃ junk : heap,
    errors_constructor c i t d e mb h
    = Some (mkProblem d (Some (length (h ++ junk))) i
              (errors_pair c).1 (errors_pair c).2 t,
            h ++ junk
              ++ [CRecord (bag_props h mb ∪ {[ extensionsErrorKey := VRef e ]})]).
Proof.
  intros Hb. destruct (extensionsWithErrors_run e mb h Hb) as [junk He].
  set (m := bag_props h mb ∪ {[ extensionsErrorKey := VRef e ]}) in *.
  exists (junk ++ [CRecord m]).
  assert (Hl : (h ++ junk ++ [CRecord m]) !! length (h ++ junk)
               = Some (CRecord m)).
  { rewrite app_assoc. apply lookup_new_cell. }
  pose proof (λ s ti, buildProblem_some s ti t i d _ _ _ Hl) as Hp.
  destruct c; simpl;
    unfold badRequest, internalServerError, preconditionFailed,
      unprocessableContent;
    rewrite (bind_run _ _ _ _ _ He), Hp; simpl;
    by rewrite <- !app_assoc.
Qed.

Lemma plain_constructor_none (c : PlainConstructor) (i t d : string) (h : heap) :
  plain_constructor c i t d none h
  = Some (mkProblem d None i (plain_pair c).1 (plain_pair c).2 t, h).
Proof. by destruct c. Qed.

Lemma plain_constructor_some (c : PlainConstructor) (i t d : string)
    (b : loc) (h : heap) (bag : cell) :
  h !! b = Some bag →
  plain_constructor c i t d (some b) h
  = Some (mkProblem d (Some (length h)) i (plain_pair c).1 (plain_pair c).2 t,
          h ++ [CRecord (own_props bag)]).
Proof. intros Hb. destruct c; simpl; by apply buildProblem_some. Qed.

(** Every call on well-typed arguments returns, and this is what it
    returns. *)
Lemma run_outcome (call : Call) (h : heap) :
  bag_allocated h (call_bag call) →
  ∃ p h', run call h = Some (p, h') ∧ outcome call h p h'.
Proof.
  destruct call as [c i t d e mb | c i t d [b|]]; simpl.
  - intros Hb. destruct (errors_constructor_run c i t d e mb h Hb) as [junk ->].
    eexists _, _. split; [done|]. unfold outcome; simpl.
    split_and!; try done.
    + by apply prefix_app_r.
    + eexists. split_and!; [done | rewrite length_app; lia |].
      rewrite app_assoc. apply lookup_new_cell.
  - intros [bag Hb]. rewrite (plain_constructor_some _ _ _ _ _ _ _ Hb).
    eexists _, _. split; [done|]. unfold outcome; simpl.
    split_and!; try done.
    + by apply prefix_app_r.
    + rewrite Hb. simpl. eexists. split_and!; [done | lia |].
      apply lookup_new_cell.
  - intros _. rewrite plain_constructor_none.
    eexists _, _. split; [done|]. by unfold outcome.
Qed.

(** ** The structural view is stable under allocation *)

Lemma all_some_Some {A : Type} (m : gmap string (option A)) (r : gmap string A) :
  all_some m = Some r ↔ m = Some <$> r.
Proof.
  unfold all_some. split.
  - destruct (decide _) as [Hall|]; [|done]. intros [= <-].
    apply map_eq. intros k. rewrite lookup_fmap, lookup_omap.
    destruct (m !! k) as [o|] eqn:Hk; simpl; [|done].
    by destruct (Hall k o Hk) as [x ->].
  - intros ->. destruct (decide _) as [|Hno].
    + f_equal. apply map_eq. intros k. rewrite lookup_omap, lookup_fmap.
      by destruct (r !! k).
    + destruct Hno. intros k o. rewrite lookup_fmap.
      destruct (r !! k); naive_solver.
Qed.

Lemma reify_extend (fuel : nat) (h ext : heap) (v : value) (j : json) :
  reify fuel h v = Some j → reify fuel (h ++ ext) v = Some j.
Proof.
  revert v j. induction fuel as [|n IH]; intros [] j; simpl; try done.
  destruct (h !! l) as [c|] eqn:Hl; [|done].
  rewrite (lookup_app_l_Some _ _ _ _ Hl). destruct c as [ps|xs].
  - destruct (all_some (reify n h <$> ps)) as [r|] eqn:Hr; [|done].
    intros [= <-]. apply all_some_Some in Hr.
    assert (reify n (h ++ ext) <$> ps = Some <$> r) as ->.
    { apply map_eq. intros k.
      pose proof (f_equal (.!! k) Hr) as Hk. simpl in Hk.
      rewrite !lookup_fmap in Hk. rewrite !lookup_fmap.
      destruct (ps !! k) as [x|], (r !! k) as [y|]; simplify_eq/=; try done.
      f_equal. by apply IH. }
    by rewrite (proj2 (all_some_Some _ r) eq_refl).
  - destruct (mapM (reify n h) xs) as [js|] eqn:Hjs; [|done].
    intros [= <-]. apply mapM_Some in Hjs.
    assert (mapM (reify n (h ++ ext)) xs = Some js) as ->; [|done].
    apply mapM_Some. eapply Forall2_impl; [exact Hjs|]. intros x y. apply IH.
Qed.

Lemma reify_prefix (fuel : nat) (h h' : heap) (v : value) (j : json) :
  h `prefix_of` h' → reify fuel h v = Some j → reify fuel h' v = Some j.
Proof. intros [ext ->]. apply reify_extend. Qed.

Lemma reify_record (fuel : nat) (h : heap) (l : loc) (ps : gmap string value) :
  h !! l = Some (CRecord ps) →
  reify (S fuel) h (VRef l) = JObj <$> all_some (reify fuel h <$> ps).
Proof. intros Hl. simpl. by rewrite Hl. Qed.

Lemma outcome_extensions_is (call : Call) (h : heap) (p : Problem) (h' : heap)
    (m : gmap string value) :
  outcome call h p h' → expected_extensions h call = Some m →
  extensions_is h' p m.
Proof.
  intros (_ & _ & _ & _ & _ & _ & Hext) Hm. rewrite Hm in Hext.
  destruct Hext as (l & Hl & _ & Hcell). by exists l.
Qed.

(** * The claims *)

(** C1.  For each of the four constructors that take a field-errors map: when
    the caller's extension bag is present and itself has a key ["errors"],
    the [extensions] object of the returned record maps ["errors"] to the
    bag's value, not to the field-errors map. *)
Theorem C1_caller_errors_key_wins (c : ErrorsConstructor) (i t d : string)
    (e b : loc) (h : heap) (bag : cell) (v : value) :
  h !! b = Some bag →
  own_props bag !! "errors" = Some v →
  ∃ p h' m,
    errors_constructor c i t d e (some b) h = Some (p, h')
    ∧ extensions_is h' p m
    ∧ m !! "errors" = Some v.
Proof.
  intros Hb Hv.
  destruct (run_outcome (CallWithErrors c i t d e (some b)) h) as (p & h' & Hrun & Hout).
  { simpl. by exists bag. }
  exists p, h', (own_props bag ∪ {[ extensionsErrorKey := VRef e ]}).
  split_and!; [done | |].
  - apply (outcome_extensions_is _ _ _ _ _ Hout). simpl. by rewrite Hb.
  - by apply lookup_union_Some_l.
Qed.

Lemma C1_caller_errors_key_wins_witness :
  collision_heap !! 1%nat = Some (CRecord {[ "errors" := VStr "mine" ]})
  ∧ own_props (CRecord {[ "errors" := VStr "mine" ]}) !! "errors"
    = Some (VStr "mine")
  ∧ ∃ p h' m,
      errors_constructor BadRequest "instance" "type" "detail" 0%nat
        (some 1%nat) collision_heap = Some (p, h')
      ∧ extensions_is h' p m
      ∧ m !! "errors" = Some (VStr "mine").
Proof.
  split; [reflexivity|]. split; [reflexivity|].
  apply (C1_caller_errors_key_wins BadRequest "instance" "type" "detail"
           0%nat 1%nat collision_heap
           (CRecord {[ "errors" := VStr "mine" ]}) (VStr "mine"));
    reflexivity.
Defined.

(** C2.  For every constructor, called on well-typed arguments, the returned
    record's [extensions] is present exactly when a field-errors map or the
    caller's extension bag was supplied; so a constructor without a
    field-errors argument, given an absent bag, leaves [extensions] absent. *)
Theorem C2_extensions_present_iff_supplied (call : Call) (h : heap) :
  bag_allocated h (call_bag call) →
  ∃ p h',
    run call h = Some (p, h')
    ∧ (is_Some (extensions p) ↔ errors_supplied call ∨ bag_present call)
    ∧ (¬ errors_supplied call → call_bag call = none → extensions p = None).
Proof.
  intros Hb. destruct (run_outcome call h Hb) as (p & h' & Hrun & Hout).
  exists p, h'. split; [done|].
  destruct Hout as (_ & _ & _ & _ & _ & _ & Hext).
  destruct call as [c i t d e mb | c i t d [b|]]; simpl in *.
  - destruct Hext as (l & -> & _). split; [|tauto].
    split; [by left | by eexists].
  - destruct Hext as (l & -> & _). split; [|done].
    unfold bag_present. simpl. split; [by right | by eexists].
  - rewrite Hext. split; [|done]. unfold bag_present. simpl.
    split; [by intros [? ?] | by intros [[]|[]]].
Qed.

Lemma C2_extensions_present_iff_supplied_witness :
  bag_allocated [] (call_bag (CallPlain NotFound "/widgets/42" "about:blank"
                               "Widget not found" none))
  ∧ ∃ p h',
      run (CallPlain NotFound "/widgets/42" "about:blank" "Widget not found"
             none) [] = Some (p, h')
      ∧ (is_Some (extensions p)
         ↔ errors_supplied (CallPlain NotFound "/widgets/42" "about:blank"
                              "Widget not found" none)
           ∨ bag_present (CallPlain NotFound "/widgets/42" "about:blank"
                            "Widget not found" none))
      ∧ (¬ errors_supplied (CallPlain NotFound "/widgets/42" "about:blank"
                              "Widget not found" none) →
         call_bag (CallPlain NotFound "/widgets/42" "about:blank"
                     "Widget not found" none) = none →
         extensions p = None).
Proof.
  split; [exact I|].
  apply (C2_extensions_present_iff_supplied
           (CallPlain NotFound "/widgets/42" "about:blank" "Widget not found"
              none) []).
  exact I.
Defined.

(** C3.  For each of the nineteen name/status/category pairs of the table,
    the corresponding constructor, called with any instance, type and detail
    (and any field-errors map where it takes one) and an absent extension
    argument, returns a record whose [status] and [title] are exactly that
    pair. *)
Theorem C3_fixed_status_and_title (call : Call) (h : heap) :
  call_bag call = none →
  ∃ p h',
    run call h = Some (p, h')
    ∧ status p = (fixed_pair call).1
    ∧ title p = (fixed_pair call).2.
Proof.
  intros Hnone.
  destruct (run_outcome call h) as (p & h' & Hrun & Hout).
  { by rewrite Hnone. }
  exists p, h'. destruct Hout as (_ & _ & _ & _ & Hs & Ht & _). done.
Qed.

Lemma C3_fixed_status_and_title_witness :
  call_bag (CallPlain UnavailableForLegalReasons "i" "t" "d" none) = none
  ∧ ∃ p h',
      run (CallPlain UnavailableForLegalReasons "i" "t" "d" none) [] = Some (p, h')
      ∧ status p = 451
      ∧ title p = "Unavailable For Legal Reasons".
Proof.
  split; [reflexivity|].
  apply (C3_fixed_status_and_title
           (CallPlain UnavailableForLegalReasons "i" "t" "d" none) []).
  reflexivity.
Defined.

(** C4.  For each of the four constructors that take a field-errors map: a
    field-errors map [e] and an absent extension argument give a record whose
    [extensions] is present and is exactly the one-entry mapping
    [{ errors: e }]. *)
Theorem C4_errors_alone (c : ErrorsConstructor) (i t d : string) (e : loc)
    (h : heap) :
  ∃ p h',
    errors_constructor c i t d e none h = Some (p, h')
    ∧ extensions_is h' p {[ "errors" := VRef e ]}.
Proof.
  destruct (run_outcome (CallWithErrors c i t d e none) h I)
    as (p & h' & Hrun & Hout).
  exists p, h'. split; [done|].
  apply (outcome_extensions_is _ _ _ _ _ Hout). simpl.
  by rewrite (left_id_L ∅ (∪)).
Qed.

(** C5.  For each of the four constructors that take a field-errors map: a
    field-errors map [e] and a present extension bag without a key
    ["errors"] give a record whose [extensions] holds [e] under the single
    key ["errors"] and every key and value of the bag beside it, and nothing
    else. *)
Theorem C5_errors_beside_bag (c : ErrorsConstructor) (i t d : string)
    (e b : loc) (h : heap) (bag : cell) :
  h !! b = Some bag →
  own_props bag !! "errors" = None →
  ∃ p h' m,
    errors_constructor c i t d e (some b) h = Some (p, h')
    ∧ extensions_is h' p m
    ∧ m = <[ "errors" := VRef e ]> (own_props bag)
    ∧ m !! "errors" = Some (VRef e)
    ∧ (∀ k v, own_props bag !! k = Some v → m !! k = Some v)
    ∧ dom m = {[ "errors" ]} ∪ dom (own_props bag).
Proof.
  intros Hb Hfree.
  destruct (run_outcome (CallWithErrors c i t d e (some b)) h) as (p & h' & Hrun & Hout).
  { simpl. by exists bag. }
  exists p, h', (<[ "errors" := VRef e ]> (own_props bag)).
  split_and!; [done | | done | | |].
  - apply (outcome_extensions_is _ _ _ _ _ Hout). simpl. rewrite Hb. simpl.
    f_equal. rewrite insert_union_singleton_l.
    apply map_union_comm, map_disjoint_singleton_r_2, Hfree.
  - apply lookup_insert_eq.
  - intros k v Hk. rewrite lookup_insert_ne; [done|]. congruence.
  - apply dom_insert_L.
Qed.

Lemma C5_errors_beside_bag_witness :
  merge_heap !! 2%nat = Some (CRecord {[ "x" := VNum 1 ]})
  ∧ own_props (CRecord {[ "x" := VNum 1 ]}) !! "errors" = None
  ∧ ∃ p h' m,
      errors_constructor UnprocessableContent "instance" "type" "detail"
        1%nat (some 2%nat) merge_heap = Some (p, h')
      ∧ extensions_is h' p m
      ∧ m = <[ "errors" := VRef 1%nat ]> (own_props (CRecord {[ "x" := VNum 1 ]}))
      ∧ m !! "errors" = Some (VRef 1%nat)
      ∧ (∀ k v, own_props (CRecord {[ "x" := VNum 1 ]}) !! k = Some v →
                m !! k = Some v)
      ∧ dom m = {[ "errors" ]} ∪ dom (own_props (CRecord {[ "x" := VNum 1 ]})).
Proof.
  split; [reflexivity|]. split; [reflexivity|].
  apply (C5_errors_beside_bag UnprocessableContent "instance" "type" "detail"
           1%nat 2%nat merge_heap (CRecord {[ "x" := VNum 1 ]}));
    reflexivity.
Defined.

(** The example of C5, walked structurally: errors [{"a.b": ["m1","m2"]}]
    with bag [{"x": 1}] give
    [extensions = { errors: {"a.b": ["m1","m2"]}, x: 1 }], for each of the
    four constructors. *)
Example merge_example (c : ErrorsConstructor) :
  ∃ p h',
    errors_constructor c "instance" "type" "detail" 1%nat (some 2%nat) merge_heap
    = Some (p, h')
    ∧ extensions_json 3 h' p
      = Some (JObj {[ "errors" := JObj {[ "a.b" := JArr [JStr "m1"; JStr "m2"] ]};
                      "x" := JNum 1 ]}).
Proof. destruct c; eexists _, _; (split; [reflexivity|]); vm_compute; reflexivity. Qed.

(** C6, as the specification states it: [extensions] present only when a
    field-errors map or a non-empty extension bag was supplied.  A present
    but empty bag refutes it: [conflict(..., some({}))] returns a record
    whose [extensions] is present. *)
Lemma C6_empty_bag_counterexample :
  ¬ (∀ call h p h',
       run call h = Some (p, h') →
       is_Some (extensions p) →
       errors_supplied call ∨ bag_nonempty h call).
Proof.
  intros Hclaim.
  destruct (Hclaim (CallPlain Conflict "instance" "type" "detail" (some 0%nat))
              [CRecord ∅] _ _ eq_refl) as [[] | (b & bag & Hb & Hbag & Hne)].
  - by eexists.
  - simpl in Hb. injection Hb as <-. simpl in Hbag. injection Hbag as <-.
    by apply Hne.
Qed.

(** C6, amended.  For every constructor, if the returned record's
    [extensions] is present then a field-errors map was supplied or the
    caller's extension bag was present, empty or not; a present and empty bag
    alone gives a present, empty [extensions]. *)
Theorem C6_extensions_present_only_if_supplied (call : Call) (h : heap) :
  bag_allocated h (call_bag call) →
  ∃ p h',
    run call h = Some (p, h')
    ∧ (is_Some (extensions p) → errors_supplied call ∨ bag_present call)
    ∧ (¬ errors_supplied call → bag_present call →
       bag_props h (call_bag call) = ∅ → extensions_is h' p ∅).
Proof.
  intros Hb. destruct (run_outcome call h Hb) as (p & h' & Hrun & Hout).
  exists p, h'. split; [done|].
  pose proof Hout as (_ & _ & _ & _ & _ & _ & Hext).
  destruct call as [c i t d e mb | c i t d [b|]]; simpl in *.
  - split; [by left | tauto].
  - split; [by right|]. intros _ _ Hempty.
    apply (outcome_extensions_is _ _ _ _ _ Hout). simpl. by rewrite Hempty.
  - rewrite Hext. split; [by intros [? ?] | by intros _ []].
Qed.

Lemma C6_extensions_present_only_if_supplied_witness :
  bag_allocated [CRecord ∅]
    (call_bag (CallPlain Conflict "instance" "type" "detail" (some 0%nat)))
  ∧ ∃ p h',
      run (CallPlain Conflict "instance" "type" "detail" (some 0%nat))
        [CRecord ∅] = Some (p, h')
      ∧ (is_Some (extensions p) →
         errors_supplied (CallPlain Conflict "instance" "type" "detail" (some 0%nat))
         ∨ bag_present (CallPlain Conflict "instance" "type" "detail" (some 0%nat)))
      ∧ (¬ errors_supplied (CallPlain Conflict "instance" "type" "detail" (some 0%nat)) →
         bag_present (CallPlain Conflict "instance" "type" "detail" (some 0%nat)) →
         bag_props [CRecord ∅]
           (call_bag (CallPlain Conflict "instance" "type" "detail" (some 0%nat))) = ∅ →
         extensions_is h' p ∅).
Proof.
  split; [by eexists|].
  apply (C6_extensions_present_only_if_supplied
           (CallPlain Conflict "instance" "type" "detail" (some 0%nat))
           [CRecord ∅]).
  by eexists.
Defined.

(** C8.  The bad-input scenario: in any store where [e] is the map
    [{"user.email": ["must be an email"]}],
    [badRequest("/users", "https://httpstatuses.io/400", "Invalid input", e,
    none)] returns the record with status 400, title "Bad Request", the three
    strings unchanged, and [extensions] an object that is structurally
    [{errors: {"user.email": ["must be an email"]}}]. *)
Theorem C8_bad_request_scenario (h : heap) (e : loc) (fuel : nat) :
  reify fuel h (VRef e) = Some scenario_errors →
  ∃ l h',
    badRequest "/users" "https://httpstatuses.io/400" "Invalid input" e none h
    = Some ({| detail := "Invalid input";
               extensions := Some l;
               instance := "/users";
               status := 400;
               title := "Bad Request";
               type := "https://httpstatuses.io/400" |}, h')
    ∧ reify (S fuel) h' (VRef l)
      = Some (JObj {[ "errors" := scenario_errors ]}).
Proof.
  intros He.
  destruct (errors_constructor_run BadRequest "/users"
              "https://httpstatuses.io/400" "Invalid input" e none h I)
    as [junk Hrun].
  simpl in Hrun. rewrite (left_id_L ∅ (∪)) in Hrun.
  eexists _, _. split; [exact Hrun|].
  rewrite (reify_record _ _ _ {[ extensionsErrorKey := VRef e ]}).
  - rewrite map_fmap_singleton.
    rewrite (reify_extend _ _ _ _ _ He).
    rewrite (proj2 (all_some_Some _ {[ extensionsErrorKey := scenario_errors ]}));
      [done|].
    by rewrite map_fmap_singleton.
  - rewrite app_assoc. apply lookup_new_cell.
Qed.

Lemma C8_bad_request_scenario_witness :
  reify 2 scenario_heap (VRef 1%nat) = Some scenario_errors
  ∧ ∃ l h',
      badRequest "/users" "https://httpstatuses.io/400" "Invalid input"
        1%nat none scenario_heap
      = Some ({| detail := "Invalid input";
                 extensions := Some l;
                 instance := "/users";
                 status := 400;
                 title := "Bad Request";
                 type := "https://httpstatuses.io/400" |}, h')
      ∧ reify 3 h' (VRef l) = Some (JObj {[ "errors" := scenario_errors ]}).
Proof.
  split; [vm_compute; reflexivity|].
  apply (C8_bad_request_scenario scenario_heap 1%nat 2).
  vm_compute; reflexivity.
Defined.

(** C10.  For each of the fifteen constructors without a field-errors
    argument, called with a present extension bag [b]: the record's
    [extensions] holds exactly the keys and values of [b]; no ["errors"] key
    nor any other is added, removed or changed. *)
Theorem C10_plain_extensions_are_the_bag (c : PlainConstructor) (i t d : string)
    (b : loc) (h : heap) (bag : cell) :
  h !! b = Some bag →
  ∃ p h',
    plain_constructor c i t d (some b) h = Some (p, h')
    ∧ extensions_is h' p (own_props bag).
Proof.
  intros Hb. rewrite (plain_constructor_some _ _ _ _ _ _ _ Hb).
  eexists _, _. split; [done|].
  eexists. split; [done|]. apply lookup_new_cell.
Qed.

Lemma C10_plain_extensions_are_the_bag_witness :
  [CRecord {[ "authScheme" := VStr "Bearer"; "requestId" := VStr "r-1" ]}] !! 0%nat
  = Some (CRecord {[ "authScheme" := VStr "Bearer"; "requestId" := VStr "r-1" ]})
  ∧ ∃ p h',
      plain_constructor Unauthorized "/auth" "https://httpstatuses.io/401"
        "Authentication required" (some 0%nat)
        [CRecord {[ "authScheme" := VStr "Bearer"; "requestId" := VStr "r-1" ]}]
      = Some (p, h')
      ∧ extensions_is h' p
          (own_props
             (CRecord {[ "authScheme" := VStr "Bearer"; "requestId" := VStr "r-1" ]})).
Proof.
  split; [reflexivity|].
  apply (C10_plain_extensions_are_the_bag Unauthorized "/auth"
           "https://httpstatuses.io/401" "Authentication required" 0%nat
           [CRecord {[ "authScheme" := VStr "Bearer"; "requestId" := VStr "r-1" ]}]
           (CRecord {[ "authScheme" := VStr "Bearer"; "requestId" := VStr "r-1" ]})).
  reflexivity.
Defined.

(** * Further properties of [src/index.ts] *)

Lemma outcome_extensions (call : Call) (h : heap) (p : Problem) (h' : heap)
    (m : gmap string value) :
  outcome call h p h' → expected_extensions h call = Some m →
  ∃ l, extensions p = Some l ∧ (length h ≤ l)%nat ∧ h' !! l = Some (CRecord m).
Proof.
  intros (_ & _ & _ & _ & _ & _ & Hext) Hm. by rewrite Hm in Hext.
Qed.

Lemma prefix_bag_props (h h' : heap) (mb : Maybe loc) :
  h `prefix_of` h' → bag_allocated h mb → bag_props h' mb = bag_props h mb.
Proof.
  intros Hpre Hb. destruct mb as [b|]; [|done]. destruct Hb as [bag Hb].
  pose proof (prefix_lookup_Some _ _ _ _ Hb Hpre) as Hb'.
  unfold bag_props. f_equal. rewrite Hb. exact Hb'.
Qed.

(** X1.  The field-errors map is not copied.  For each of the four constructors
    that take one, when the caller's bag is absent or has no key ["errors"],
    the ["errors"] entry of [extensions] is the caller's own object [e]:
    whatever the caller later writes into [e] is what the record's
    [extensions] refers to. *)
Theorem errors_map_is_shared (c : ErrorsConstructor) (i t d : string)
    (e : loc) (mb : Maybe loc) (h : heap) :
  bag_allocated h mb →
  is_Some (h !! e) →
  bag_props h mb !! "errors" = None →
  ∃ p h' l m,
    errors_constructor c i t d e mb h = Some (p, h')
    ∧ extensions p = Some l
    ∧ h' !! l = Some (CRecord m)
    ∧ m !! "errors" = Some (VRef e)
    ∧ ∀ written : cell,
        <[e := written]> h' !! l = Some (CRecord m)
        ∧ <[e := written]> h' !! e = Some written.
Proof.
  intros Hb [ce He] Hfree.
  destruct (run_outcome (CallWithErrors c i t d e mb) h Hb)
    as (p & h' & Hrun & Hout).
  destruct (outcome_extensions _ _ _ _ _ Hout eq_refl) as (l & Hl & Hge & Hcell).
  destruct Hout as (Hpre & _).
  pose proof (lookup_lt_Some _ _ _ He) as Hlt.
  eexists p, h', l, _. split_and!; [done | done | exact Hcell | |].
  - rewrite lookup_union_r by done. apply lookup_singleton_eq.
  - intros written. split.
    + rewrite list_lookup_insert_ne by lia. exact Hcell.
    + apply list_lookup_insert_eq.
      apply prefix_length in Hpre. lia.
Qed.

Lemma errors_map_is_shared_witness :
  bag_allocated scenario_heap none
  ∧ is_Some (scenario_heap !! 1%nat)
  ∧ bag_props scenario_heap none !! "errors" = None
  ∧ ∃ p h' l m,
      errors_constructor PreconditionFailed "i" "t" "d" 1%nat none scenario_heap
      = Some (p, h')
      ∧ extensions p = Some l
      ∧ h' !! l = Some (CRecord m)
      ∧ m !! "errors" = Some (VRef 1%nat)
      ∧ ∀ written : cell,
          <[1%nat := written]> h' !! l = Some (CRecord m)
          ∧ <[1%nat := written]> h' !! 1%nat = Some written.
Proof.
  split; [exact I|]. split; [by eexists|]. split; [reflexivity|].
  apply (errors_map_is_shared PreconditionFailed "i" "t" "d" 1%nat none
           scenario_heap);
    [exact I | by eexists | reflexivity].
Defined.

(** X2.  The copy of the bag is one level deep.  For every constructor, an object
    [n] that the caller's bag holds under a key [k] is held under [k] by the
    record's [extensions] as the same object: a later write into [n] is seen
    through the record, while the [extensions] object itself stays as it
    is. *)
Theorem bag_values_are_shared (call : Call) (h : heap) (b n : loc) (bag : cell)
    (k : string) :
  call_bag call = some b →
  h !! b = Some bag →
  own_props bag !! k = Some (VRef n) →
  is_Some (h !! n) →
  ∃ p h' l m,
    run call h = Some (p, h')
    ∧ extensions p = Some l
    ∧ h' !! l = Some (CRecord m)
    ∧ m !! k = Some (VRef n)
    ∧ ∀ written : cell,
        <[n := written]> h' !! l = Some (CRecord m)
        ∧ <[n := written]> h' !! n = Some written.
Proof.
  intros Hbag Hb Hk [cn Hn].
  destruct (run_outcome call h) as (p & h' & Hrun & Hout).
  { rewrite Hbag. by exists bag. }
  assert (∃ m, expected_extensions h call = Some m ∧ m !! k = Some (VRef n))
    as (m & Hm & Hmk).
  { destruct call as [c i t d e mb | c i t d mb]; simpl in *; subst;
      simpl; rewrite Hb; simpl; eexists; (split; [done|]); [|done].
    by apply lookup_union_Some_l. }
  destruct (outcome_extensions _ _ _ _ _ Hout Hm) as (l & Hl & Hge & Hcell).
  destruct Hout as (Hpre & _).
  pose proof (lookup_lt_Some _ _ _ Hn) as Hlt.
  exists p, h', l, m. split_and!; try done.
  intros written. split.
  - rewrite list_lookup_insert_ne by lia. exact Hcell.
  - apply list_lookup_insert_eq. apply prefix_length in Hpre. lia.
Qed.

(** A store with the array [[0, 1, 2]] at reference [0] and the bag
    [{"gamma": [0, 1, 2]}] at reference [1]. *)
Lemma bag_values_are_shared_witness :
  call_bag (CallPlain Gone "i" "t" "d" (some 1%nat)) = some 1%nat
  ∧ [CArray [VNum 0; VNum 1; VNum 2]; CRecord {[ "gamma" := VRef 0%nat ]}] !! 1%nat
    = Some (CRecord {[ "gamma" := VRef 0%nat ]})
  ∧ own_props (CRecord {[ "gamma" := VRef 0%nat ]}) !! "gamma" = Some (VRef 0%nat)
  ∧ is_Some ([CArray [VNum 0; VNum 1; VNum 2];
              CRecord {[ "gamma" := VRef 0%nat ]}] !! 0%nat)
  ∧ ∃ p h' l m,
      run (CallPlain Gone "i" "t" "d" (some 1%nat))
        [CArray [VNum 0; VNum 1; VNum 2]; CRecord {[ "gamma" := VRef 0%nat ]}]
      = Some (p, h')
      ∧ extensions p = Some l
      ∧ h' !! l = Some (CRecord m)
      ∧ m !! "gamma" = Some (VRef 0%nat)
      ∧ ∀ written : cell,
          <[0%nat := written]> h' !! l = Some (CRecord m)
          ∧ <[0%nat := written]> h' !! 0%nat = Some written.
Proof.
  split; [reflexivity|]. split; [reflexivity|]. split; [reflexivity|].
  split; [by eexists|].
  apply (bag_values_are_shared (CallPlain Gone "i" "t" "d" (some 1%nat))
           [CArray [VNum 0; VNum 1; VNum 2]; CRecord {[ "gamma" := VRef 0%nat ]}]
           1%nat 0%nat (CRecord {[ "gamma" := VRef 0%nat ]}) "gamma");
    [reflexivity | reflexivity | reflexivity | by eexists].
Defined.

(** X3.  The merge in full.  For each of the four constructors that take a
    field-errors map, and any well-typed extension argument: a key of
    [extensions] has the caller's value when the caller's bag has that key;
    otherwise ["errors"] has the field-errors map, and no other key exists.
    So ["errors"] is always a key of [extensions]. *)
Theorem merged_extensions_lookup (c : ErrorsConstructor) (i t d : string)
    (e : loc) (mb : Maybe loc) (h : heap) :
  bag_allocated h mb →
  ∃ p h' m,
    errors_constructor c i t d e mb h = Some (p, h')
    ∧ extensions_is h' p m
    ∧ (∀ k, m !! k = match bag_props h mb !! k with
                     | Some v => Some v
                     | None => if decide (k = "errors") then Some (VRef e) else None
                     end)
    ∧ dom m = {[ "errors" ]} ∪ dom (bag_props h mb).
Proof.
  intros Hb.
  destruct (run_outcome (CallWithErrors c i t d e mb) h Hb)
    as (p & h' & Hrun & Hout).
  eexists p, h', _. split_and!; [done | | |].
  - by apply (outcome_extensions_is _ _ _ _ _ Hout).
  - intros k. rewrite lookup_union.
    destruct (bag_props h mb !! k) as [v|]; simpl.
    + by rewrite (union_Some_l v).
    + rewrite (left_id_L None union). unfold extensionsErrorKey.
      destruct (decide (k = "errors")) as [->|Hne].
      * apply lookup_singleton_eq.
      * by rewrite lookup_singleton_ne.
  - rewrite dom_union_L, dom_singleton_L. unfold extensionsErrorKey.
    apply (comm_L (∪)).
Qed.

Lemma merged_extensions_lookup_witness :
  bag_allocated collision_heap (some 1%nat)
  ∧ ∃ p h' m,
      errors_constructor InternalServerError "i" "t" "d" 0%nat (some 1%nat)
        collision_heap = Some (p, h')
      ∧ extensions_is h' p m
      ∧ (∀ k, m !! k = match bag_props collision_heap (some 1%nat) !! k with
                       | Some v => Some v
                       | None =>
                           if decide (k = "errors") then Some (VRef 0%nat) else None
                       end)
      ∧ dom m = {[ "errors" ]} ∪ dom (bag_props collision_heap (some 1%nat)).
Proof.
  split; [by eexists|].
  apply (merged_extensions_lookup InternalServerError "i" "t" "d" 0%nat
           (some 1%nat) collision_heap).
  by eexists.
Defined.

(** X4.  Records do not share their [extensions].  Making the same call twice
    gives two records with the same five fields whose [extensions] are two
    different objects, each new when it is made, holding the same mapping:
    the one the call is expected to leave. *)
Theorem repeated_call_new_object (call : Call) (h : heap) :
  bag_allocated h (call_bag call) →
  errors_supplied call ∨ bag_present call →
  ∃ p1 h1 p2 h2 l1 l2 m,
    run call h = Some (p1, h1)
    ∧ run call h1 = Some (p2, h2)
    ∧ extensions p1 = Some l1
    ∧ extensions p2 = Some l2
    ∧ l1 ≠ l2
    ∧ h !! l1 = None
    ∧ h1 !! l2 = None
    ∧ expected_extensions h call = Some m
    ∧ h2 !! l1 = Some (CRecord m)
    ∧ h2 !! l2 = Some (CRecord m)
    ∧ detail p1 = detail p2 ∧ instance p1 = instance p2 ∧ type p1 = type p2
    ∧ status p1 = status p2 ∧ title p1 = title p2.
Proof.
  intros Hb Hsup.
  destruct (run_outcome call h Hb) as (p1 & h1 & Hrun1 & Hout1).
  pose proof Hout1 as (Hpre1 & Hd1 & Hi1 & Ht1 & Hs1 & Hti1 & _).
  assert (bag_allocated h1 (call_bag call)) as Hb1.
  { destruct (call_bag call) as [b|]; [|done]. destruct Hb as [bag Hbag].
    exists bag. by apply (prefix_lookup_Some _ _ _ _ Hbag). }
  destruct (run_outcome call h1 Hb1) as (p2 & h2 & Hrun2 & Hout2).
  pose proof Hout2 as (Hpre2 & Hd2 & Hi2 & Ht2 & Hs2 & Hti2 & _).
  assert (∃ m, expected_extensions h call = Some m
               ∧ expected_extensions h1 call = Some m) as (m & Hm & Hm1).
  { destruct call as [c i t d e mb | c i t d [b|]].
    - eexists. split; [done|]. cbn [expected_extensions].
      by rewrite (prefix_bag_props h h1 mb Hpre1 Hb).
    - eexists. split; [done|]. cbn [expected_extensions]. f_equal.
      exact (prefix_bag_props h h1 (some b) Hpre1 Hb).
    - unfold bag_present in Hsup. simpl in Hsup. by destruct Hsup. }
  destruct (outcome_extensions _ _ _ _ _ Hout1 Hm) as (l1 & Hl1 & Hge1 & Hc1).
  destruct (outcome_extensions _ _ _ _ _ Hout2 Hm1) as (l2 & Hl2 & Hge2 & Hc2).
  pose proof (lookup_lt_Some _ _ _ Hc1) as Hlt1.
  exists p1, h1, p2, h2, l1, l2, m.
  split_and!; try done; try congruence.
  - lia.
  - by apply lookup_ge_None.
  - by apply lookup_ge_None.
  - by apply (prefix_lookup_Some _ _ _ _ Hc1).
Qed.

Lemma repeated_call_new_object_witness :
  bag_allocated merge_heap
    (call_bag (CallWithErrors BadRequest "i" "t" "d" 1%nat (some 2%nat)))
  ∧ (errors_supplied (CallWithErrors BadRequest "i" "t" "d" 1%nat (some 2%nat))
     ∨ bag_present (CallWithErrors BadRequest "i" "t" "d" 1%nat (some 2%nat)))
  ∧ ∃ p1 h1 p2 h2 l1 l2 m,
      run (CallWithErrors BadRequest "i" "t" "d" 1%nat (some 2%nat)) merge_heap
      = Some (p1, h1)
      ∧ run (CallWithErrors BadRequest "i" "t" "d" 1%nat (some 2%nat)) h1
        = Some (p2, h2)
      ∧ extensions p1 = Some l1
      ∧ extensions p2 = Some l2
      ∧ l1 ≠ l2
      ∧ merge_heap !! l1 = None
      ∧ h1 !! l2 = None
      ∧ expected_extensions merge_heap
          (CallWithErrors BadRequest "i" "t" "d" 1%nat (some 2%nat)) = Some m
      ∧ h2 !! l1 = Some (CRecord m)
      ∧ h2 !! l2 = Some (CRecord m)
      ∧ detail p1 = detail p2 ∧ instance p1 = instance p2 ∧ type p1 = type p2
      ∧ status p1 = status p2 ∧ title p1 = title p2.
Proof.
  split; [by eexists|]. split; [left; exact I|].
  apply (repeated_call_new_object
           (CallWithErrors BadRequest "i" "t" "d" 1%nat (some 2%nat))
           merge_heap);
    [by eexists | left; exact I].
Defined.

(** ** Structural equality of [extensions], as the tests compare it *)

Lemma reify_fmap_extend (fuel : nat) (h ext : heap) (ps : gmap string value)
    (r : gmap string json) :
  reify fuel h <$> ps = Some <$> r → reify fuel (h ++ ext) <$> ps = Some <$> r.
Proof.
  intros Hr. apply map_eq. intros k.
  pose proof (f_equal (.!! k) Hr) as Hk. simpl in Hk.
  rewrite !lookup_fmap in Hk. rewrite !lookup_fmap.
  destruct (ps !! k) as [x|], (r !! k) as [y|]; simplify_eq/=; try done.
  f_equal. by apply reify_extend.
Qed.

Lemma reify_object_inv (fuel : nat) (h : heap) (b : loc) (jb : gmap string json) :
  reify (S fuel) h (VRef b) = Some (JObj jb) →
  ∃ ps, h !! b = Some (CRecord ps) ∧ reify fuel h <$> ps = Some <$> jb.
Proof.
  simpl. destruct (h !! b) as [[ps|xs]|]; [| |done].
  - destruct (all_some (reify fuel h <$> ps)) as [r|] eqn:Hr; [|done].
    intros [= <-]. exists ps. split; [done|]. by apply all_some_Some.
  - by destruct (mapM (reify fuel h) xs).
Qed.

Lemma reify_object (fuel : nat) (h : heap) (l : loc) (ps : gmap string value)
    (r : gmap string json) :
  h !! l = Some (CRecord ps) → reify fuel h <$> ps = Some <$> r →
  reify (S fuel) h (VRef l) = Some (JObj r).
Proof.
  intros Hl Hr. rewrite (reify_record _ _ _ _ Hl), Hr.
  by rewrite (proj2 (all_some_Some _ r) eq_refl).
Qed.

(** X5.  For each of the fifteen constructors without a field-errors argument: if
    the caller's bag is, structurally, the object [jb], then the record's
    [extensions] is structurally [jb] too. *)
Theorem plain_extensions_structure (c : PlainConstructor) (i t d : string)
    (b : loc) (h : heap) (fuel : nat) (jb : gmap string json) :
  reify (S fuel) h (VRef b) = Some (JObj jb) →
  ∃ p h',
    plain_constructor c i t d (some b) h = Some (p, h')
    ∧ extensions_json (S fuel) h' p = Some (JObj jb).
Proof.
  intros Hj. destruct (reify_object_inv _ _ _ _ Hj) as (ps & Hb & Hps).
  rewrite (plain_constructor_some _ _ _ _ _ _ _ Hb).
  eexists _, _. split; [done|]. unfold extensions_json. cbn [extensions own_props].
  apply (reify_object _ _ _ ps).
  - apply lookup_new_cell.
  - by apply reify_fmap_extend.
Qed.

Lemma plain_extensions_structure_witness :
  reify 2 merge_heap (VRef 1%nat)
  = Some (JObj {[ "a.b" := JArr [JStr "m1"; JStr "m2"] ]})
  ∧ ∃ p h',
      plain_constructor TooManyRequests "i" "t" "d" (some 1%nat) merge_heap
      = Some (p, h')
      ∧ extensions_json 2 h' p
        = Some (JObj {[ "a.b" := JArr [JStr "m1"; JStr "m2"] ]}).
Proof.
  split; [vm_compute; reflexivity|].
  apply (plain_extensions_structure TooManyRequests "i" "t" "d" 1%nat
           merge_heap 1 {[ "a.b" := JArr [JStr "m1"; JStr "m2"] ]}).
  vm_compute; reflexivity.
Defined.

(** X6.  For each of the four constructors that take a field-errors map: if the
    field-errors map is structurally [je] and the caller's bag is absent, or
    is structurally the object [jb], then [extensions] is structurally [jb]
    laid over [{ errors: je }]. *)
Theorem errors_extensions_structure (c : ErrorsConstructor) (i t d : string)
    (e : loc) (mb : Maybe loc) (h : heap) (fuel : nat) (je : json)
    (jb : gmap string json) :
  reify fuel h (VRef e) = Some je →
  bag_json (S fuel) h mb = Some jb →
  ∃ p h',
    errors_constructor c i t d e mb h = Some (p, h')
    ∧ extensions_json (S fuel) h' p = Some (JObj (jb ∪ {[ "errors" := je ]})).
Proof.
  intros He Hjb.
  assert (bag_allocated h mb ∧ reify fuel h <$> bag_props h mb = Some <$> jb)
    as [Hb Hps].
  { destruct mb as [b|]; simpl in Hjb.
    - destruct (h !! b) as [[ps|xs]|] eqn:Hcell; [| |done].
      + split; [by eexists|]. unfold bag_props. rewrite Hcell. simpl.
        destruct (all_some (reify fuel h <$> ps)) as [r|] eqn:Hr; [|done].
        simpl in Hjb. injection Hjb as <-. by apply all_some_Some.
      + by destruct (mapM (reify fuel h) xs).
    - injection Hjb as <-. split; [done|]. simpl. by rewrite !fmap_empty. }
  destruct (errors_constructor_run c i t d e mb h Hb) as [junk Hrun].
  eexists _, _. split; [exact Hrun|].
  unfold extensions_json. cbn [extensions].
  apply (reify_object _ _ _
           (bag_props h mb ∪ {[ extensionsErrorKey := VRef e ]})).
  - rewrite app_assoc. apply lookup_new_cell.
  - rewrite !map_fmap_union, !map_fmap_singleton.
    rewrite (reify_fmap_extend _ _ _ _ _ Hps).
    by rewrite (reify_extend _ _ _ _ _ He).
Qed.

Lemma errors_extensions_structure_witness :
  reify 2 merge_heap (VRef 1%nat)
  = Some (JObj {[ "a.b" := JArr [JStr "m1"; JStr "m2"] ]})
  ∧ bag_json 3 merge_heap (some 2%nat) = Some {[ "x" := JNum 1 ]}
  ∧ ∃ p h',
      errors_constructor PreconditionFailed "i" "t" "d" 1%nat (some 2%nat)
        merge_heap = Some (p, h')
      ∧ extensions_json 3 h' p
        = Some (JObj ({[ "x" := JNum 1 ]}
                      ∪ {[ "errors" := JObj {[ "a.b" := JArr [JStr "m1"; JStr "m2"] ]} ]})).
Proof.
  split; [vm_compute; reflexivity|]. split; [vm_compute; reflexivity|].
  apply (errors_extensions_structure PreconditionFailed "i" "t" "d" 1%nat
           (some 2%nat) merge_heap 2
           (JObj {[ "a.b" := JArr [JStr "m1"; JStr "m2"] ]})
           {[ "x" := JNum 1 ]});
    vm_compute; reflexivity.
Defined.

(** ** The helpers and the table *)

(** X8.  [getExtensionsOrEmpty] never hands back the caller's object nor
    [undefined]: on a well-typed argument it returns an object that did not
    exist before the call, which holds the mapping of the caller's bag, or no
    key at all when the bag is absent. *)
Theorem getExtensionsOrEmpty_new_object (mb : Maybe loc) (h : heap) :
  bag_allocated h mb →
  ∃ l h',
    getExtensionsOrEmpty mb h = Some (l, h')
    ∧ h `prefix_of` h'
    ∧ h !! l = None
    ∧ h' !! l = Some (CRecord (bag_props h mb))
    ∧ (mb = none → h' !! l = Some (CRecord ∅)).
Proof.
  intros Hb. destruct (getExtensionsOrEmpty_run mb h Hb) as [junk Hrun].
  eexists _, _. split; [exact Hrun|]. split_and!.
  - by apply prefix_app_r.
  - apply lookup_ge_None. rewrite length_app. lia.
  - rewrite app_assoc. apply lookup_new_cell.
  - intros ->. rewrite app_assoc. apply lookup_new_cell.
Qed.

Lemma getExtensionsOrEmpty_new_object_witness :
  bag_allocated merge_heap (some 2%nat)
  ∧ ∃ l h',
      getExtensionsOrEmpty (some 2%nat) merge_heap = Some (l, h')
      ∧ merge_heap `prefix_of` h'
      ∧ merge_heap !! l = None
      ∧ h' !! l = Some (CRecord (bag_props merge_heap (some 2%nat)))
      ∧ (some 2%nat = none → h' !! l = Some (CRecord ∅)).
Proof.
  split; [by eexists|].
  apply (getExtensionsOrEmpty_new_object (some 2%nat) merge_heap).
  by eexists.
Defined.

Lemma buildProblem_fields (s : Z) (ti ty i d : string) (mb : Maybe loc)
    (h : heap) (p : Problem) (h' : heap) :
  buildProblem s ti ty i d mb h = Some (p, h') →
  status p = s ∧ title p = ti.
Proof.
  unfold buildProblem, mbind, M_bind.
  destruct (resolveExtensions mb h) as [[ext h1]|]; [|done].
  by intros [= <- <-].
Qed.

Lemma run_fixed_pair (call : Call) (h : heap) (p : Problem) (h' : heap) :
  run call h = Some (p, h') →
  status p = (fixed_pair call).1 ∧ title p = (fixed_pair call).2.
Proof.
  destruct call as [c i t d e mb | c i t d mb]; simpl.
  - destruct c; simpl;
      unfold badRequest, internalServerError, preconditionFailed,
        unprocessableContent, mbind, M_bind;
      (destruct (extensionsWithErrors e mb h) as [[ext h1]|]; [|done]);
      apply buildProblem_fields.
  - destruct c; simpl; apply buildProblem_fields.
Qed.

(** X9.  The status of a returned record is a client or server error code, and it
    identifies the constructor's category: two records with the same status,
    whatever calls made them, have the same title and come from constructors
    of the same kind. *)
Theorem status_identifies_title (call1 call2 : Call) (h1 h2 : heap)
    (p1 p2 : Problem) (h1' h2' : heap) :
  run call1 h1 = Some (p1, h1') →
  run call2 h2 = Some (p2, h2') →
  (400 ≤ status p1 ≤ 599)%Z
  ∧ (status p1 = status p2 →
     title p1 = title p2 ∧ (errors_supplied call1 ↔ errors_supplied call2)).
Proof.
  intros [Hs1 Ht1]%run_fixed_pair [Hs2 Ht2]%run_fixed_pair.
  rewrite Hs1, Hs2, Ht1, Ht2. clear.
  destruct call1 as [c1 ? ? ? ? ? | c1 ? ? ? ?]; destruct c1; simpl;
    (split; [lia|]);
    destruct call2 as [c2 ? ? ? ? ? | c2 ? ? ? ?]; destruct c2; simpl;
    intros Heq; try discriminate Heq; done.
Qed.

Lemma status_identifies_title_witness :
  run (CallPlain NotFound "a" "b" "c" none) [] 
  = Some (mkProblem "c" None "a" 404 "Not Found" "b", [])
  ∧ run (CallPlain NotFound "x" "y" "z" none) [CRecord ∅]
    = Some (mkProblem "z" None "x" 404 "Not Found" "y", [CRecord ∅])
  ∧ (400 ≤ status (mkProblem "c" None "a" 404 "Not Found" "b") ≤ 599)%Z
  ∧ (status (mkProblem "c" None "a" 404 "Not Found" "b")
     = status (mkProblem "z" None "x" 404 "Not Found" "y") →
     title (mkProblem "c" None "a" 404 "Not Found" "b")
     = title (mkProblem "z" None "x" 404 "Not Found" "y")
     ∧ (errors_supplied (CallPlain NotFound "a" "b" "c" none)
        ↔ errors_supplied (CallPlain NotFound "x" "y" "z" none))).
Proof.
  split; [reflexivity|]. split; [reflexivity|].
  apply (status_identifies_title
           (CallPlain NotFound "a" "b" "c" none)
           (CallPlain NotFound "x" "y" "z" none)
           [] [CRecord ∅] _ _ [] [CRecord ∅]);
    reflexivity.
Defined.

(** * Properties of the lint rules *)

Lemma ast_nested_ind (P : ast → Prop) :
  (∀ f cs, Forall P cs → P (Function f cs)) →
  (∀ id a, P a → P (ReturnStatement id (Some a))) →
  (∀ id, P (ReturnStatement id None)) →
  (∀ m cs, Forall P cs → P (MemberExpression m cs)) →
  (∀ e, P e → P (ChainExpression e)) →
  (∀ cs, Forall P cs → P (OtherNode cs)) →
  ∀ n, P n.
Proof.
  intros Hf Hr Hr0 Hm Hc Ho. fix IH 1.
  intros [f cs | id [a|] | m cs | e | cs].
  - apply Hf. revert cs. fix IHcs 1. intros [|c cs]; constructor; auto.
  - apply Hr, IH.
  - apply Hr0.
  - apply Hm. revert cs. fix IHcs 1. intros [|c cs]; constructor; auto.
  - apply Hc, IH.
  - apply Ho. revert cs. fix IHcs 1. intros [|c cs]; constructor; auto.
Qed.

Lemma alter_last {A : Type} (f : A → A) (s : list A) (k : A) :
  alter f (length (s ++ [k]) - 1)%nat (s ++ [k]) = s ++ [f k].
Proof.
  rewrite length_app. simpl.
  replace (length s + 1 - 1)%nat with (length s + 0)%nat by lia.
  by rewrite alter_app_r.
Qed.

Lemma lookup_last {A : Type} (s : list A) (k k' : A) :
  (s ++ [k]) !! (length (s ++ [k']) - 1)%nat = Some k.
Proof.
  rewrite length_app. simpl.
  replace (length s + 1 - 1)%nat with (length s) by lia.
  by apply list_lookup_middle.
Qed.

Lemma length_snoc_ne {A : Type} (s : list A) (k : A) : length (s ++ [k]) ≠ 0%nat.
Proof. rewrite length_app. simpl. lia. Qed.

(** *** [singleExitRule] *)

Lemma singleExit_children_inside (cs : list ast) :
  Forall (λ n, singleExit_inside n ∧ singleExit_outside n) cs →
  ∀ (s : list nat) (k : nat) (reps : list report),
    ∃ rs,
      foldl (λ acc c, singleExit c acc) (s ++ [k], reps) cs
      = (s ++ [(k + direct_returns_list cs)%nat], reps ++ rs)
      ∧ (rs = [] ↔
         foldr (λ c acc, single_exit c ∧ acc) True cs
         ∧ (direct_returns_list cs = 0%nat
            ∨ (k + direct_returns_list cs ≤ 1)%nat)).
Proof.
  induction 1 as [|c cs [Hc _] _ IH]; intros s k reps.
  - exists []. simpl. rewrite Nat.add_0_r, (right_id_L [] (++)).
    split; [done|]. intuition.
  - destruct (Hc s k reps) as (rs1 & Hrun1 & Hsil1).
    destruct (IH s (k + direct_returns c)%nat (reps ++ rs1))
      as (rs2 & Hrun2 & Hsil2).
    exists (rs1 ++ rs2). simpl. rewrite Hrun1, Hrun2.
    unfold direct_returns_list in *. simpl.
    rewrite Nat.add_assoc, (assoc_L (++)). split; [done|].
    split.
    + intros [-> ->]%app_eq_nil.
      destruct (proj1 Hsil1 eq_refl) as [? ?].
      destruct (proj1 Hsil2 eq_refl) as [? ?].
      split; [done|]. lia.
    + intros [[Hse Hses] Hd].
      rewrite (proj2 Hsil1), (proj2 Hsil2); [done | |]; (split; [done|]); lia.
Qed.

Lemma singleExit_children_outside (cs : list ast) :
  Forall (λ n, singleExit_inside n ∧ singleExit_outside n) cs →
  ∀ reps : list report,
    ∃ rs,
      foldl (λ acc c, singleExit c acc) ([], reps) cs = ([], reps ++ rs)
      ∧ (rs = [] ↔ foldr (λ c acc, single_exit c ∧ acc) True cs).
Proof.
  induction 1 as [|c cs [_ Hc] _ IH]; intros reps.
  - exists []. simpl. by rewrite (right_id_L [] (++)).
  - destruct (Hc reps) as (rs1 & Hrun1 & Hsil1).
    destruct (IH (reps ++ rs1)) as (rs2 & Hrun2 & Hsil2).
    exists (rs1 ++ rs2). simpl. rewrite Hrun1, Hrun2, (assoc_L (++)).
    split; [done|]. split.
    + intros [-> ->]%app_eq_nil. split; [by apply Hsil1 | by apply Hsil2].
    + intros [Hse Hses]. by rewrite (proj2 Hsil1), (proj2 Hsil2).
Qed.

(** What the walk of a function node does, in any state: the stack is
    restored, and [tooMany] is reported on leaving it, with the number of its
    own returns, exactly when that number is over one. *)
Lemma singleExit_function_run (f : function_node) (cs : list ast)
    (stack : list nat) (reps : list report) :
  Forall (λ n, singleExit_inside n ∧ singleExit_outside n) cs →
  ∃ rs,
    singleExit (Function f cs) (stack, reps)
    = (stack,
       reps ++ rs
         ++ (if decide (1 < direct_returns_list cs)%nat
             then [TooMany (fn_id f) (direct_returns_list cs)] else []))
    ∧ (rs = [] ↔
       foldr (λ c acc, single_exit c ∧ acc) True cs
       ∧ (direct_returns_list cs = 0%nat ∨ (direct_returns_list cs ≤ 1)%nat)).
Proof.
  intros Hcs.
  destruct (singleExit_children_inside cs Hcs stack 0%nat reps)
    as (rs & Hrun & Hsil).
  exists rs. split; [|exact Hsil].
  unfold singleExit. simpl. fold singleExit. rewrite Hrun. simpl.
  rewrite last_snoc, removelast_last. simpl.
  destruct (decide (1 < direct_returns_list cs)%nat).
  - by rewrite (assoc_L (++)).
  - by rewrite !(right_id_L [] (++)).
Qed.

Lemma singleExit_invariant (n : ast) :
  singleExit_inside n ∧ singleExit_outside n.
Proof.
  induction n as [f cs IH | id a [IHin IHout] | id | m cs IH | e [IHin IHout] | cs IH]
    using ast_nested_ind.
  - (* a function *)
    split.
    + intros s k reps.
      destruct (singleExit_function_run f cs (s ++ [k]) reps IH)
        as (rs & Hrun & Hsil).
      eexists. rewrite Hrun. simpl. rewrite Nat.add_0_r. split; [done|].
      fold (direct_returns_list cs).
      destruct (decide (1 < direct_returns_list cs)%nat).
      * split; [by intros [_ [=]]%app_eq_nil | intros [[_ ?] _]; lia].
      * rewrite (right_id_L [] (++)), Hsil. intuition lia.
    + intros reps.
      destruct (singleExit_function_run f cs [] reps IH) as (rs & Hrun & Hsil).
      eexists. rewrite Hrun. split; [done|]. simpl.
      fold (direct_returns_list cs).
      destruct (decide (1 < direct_returns_list cs)%nat).
      * split; [by intros [_ [=]]%app_eq_nil | intros [_ ?]; lia].
      * rewrite (right_id_L [] (++)), Hsil. intuition lia.
  - (* return with an argument *)
    split.
    + intros s k reps. unfold singleExit. simpl. fold singleExit.
      destruct (decide (length (s ++ [k]) = 0%nat)) as [Hlen|_];
        [by apply length_snoc_ne in Hlen|].
      rewrite alter_last, lookup_last. simpl.
      destruct (decide (1 < k + 1)%nat) as [Hk|Hk].
      * destruct (IHin s (k + 1)%nat (reps ++ [ExtraReturn id]))
          as (rs & -> & _).
        exists (ExtraReturn id :: rs).
        replace (k + 1 + direct_returns a)%nat
          with (k + S (direct_returns a))%nat by lia.
        rewrite <- (assoc_L (++)). split; [done|].
        split; [done | intros [_ ?]; lia].
      * destruct (IHin s (k + 1)%nat reps) as (rs & -> & Hsil).
        exists rs.
        replace (k + 1 + direct_returns a)%nat
          with (k + S (direct_returns a))%nat by lia.
        split; [done|]. rewrite Hsil. intuition lia.
    + intros reps. unfold singleExit. simpl. fold singleExit.
      destruct (IHout reps) as (rs & Hrun & Hsil).
      exists rs. by rewrite Hrun.
  - (* bare return *)
    split.
    + intros s k reps. unfold singleExit. simpl.
      destruct (decide (length (s ++ [k]) = 0%nat)) as [Hlen|_];
        [by apply length_snoc_ne in Hlen|].
      rewrite alter_last, lookup_last. simpl.
      destruct (decide (1 < k + 1)%nat) as [Hk|Hk].
      * exists [ExtraReturn id]. split; [done|].
        split; [done | intros [_ ?]; lia].
      * exists []. rewrite (right_id_L [] (++)). split; [done|].
        intuition lia.
    + intros reps. exists []. unfold singleExit. simpl.
      by rewrite (right_id_L [] (++)).
  - (* member expression *)
    split.
    + intros s k reps. unfold singleExit. simpl. fold singleExit.
      destruct (singleExit_children_inside cs IH s k reps) as (rs & Hrun & Hsil).
      exists rs. by rewrite Hrun.
    + intros reps. unfold singleExit. simpl. fold singleExit.
      destruct (singleExit_children_outside cs IH reps) as (rs & Hrun & Hsil).
      exists rs. by rewrite Hrun.
  - (* chain expression *)
    split.
    + intros s k reps. unfold singleExit. simpl. fold singleExit.
      destruct (IHin s k reps) as (rs & Hrun & Hsil).
      exists rs. by rewrite Hrun.
    + intros reps. unfold singleExit. simpl. fold singleExit.
      destruct (IHout reps) as (rs & Hrun & Hsil).
      exists rs. by rewrite Hrun.
  - (* any other node *)
    split.
    + intros s k reps. unfold singleExit. simpl. fold singleExit.
      destruct (singleExit_children_inside cs IH s k reps) as (rs & Hrun & Hsil).
      exists rs. by rewrite Hrun.
    + intros reps. unfold singleExit. simpl. fold singleExit.
      destruct (singleExit_children_outside cs IH reps) as (rs & Hrun & Hsil).
      exists rs. by rewrite Hrun.
Qed.

(** X10.  Linting a whole tree with [singleExitRule], from the empty stack of a new
    rule instance: the stack is empty again at the end, and the rule reports
    nothing exactly when every function of the tree has at most one return
    statement of its own.  Returns outside every function are ignored. *)
Theorem singleExit_silent_iff_single_exit (n : ast) :
  ∃ reports,
    singleExit n ([], []) = ([], reports)
    ∧ (reports = [] ↔ single_exit n).
Proof.
  destruct (proj2 (singleExit_invariant n) []) as (rs & Hrun & Hsil).
  exists rs. by rewrite Hrun.
Qed.

(** X11.  A function node, wherever the walk meets it: the stack after the node is
    the stack before it, and what is reported last, on leaving the node, is
    [tooMany] with the number of the function's own return statements,
    exactly when that number is over one.  Returns of nested functions do not
    count for the enclosing one. *)
Theorem singleExit_function_report (f : function_node) (cs : list ast)
    (stack : list nat) (reps : list report) :
  ∃ inner,
    singleExit (Function f cs) (stack, reps)
    = (stack,
       reps ++ inner
         ++ (if decide (1 < direct_returns_list cs)%nat
             then [TooMany (fn_id f) (direct_returns_list cs)] else []))
    ∧ (inner = [] ↔
       foldr (λ c acc, single_exit c ∧ acc) True cs
       ∧ (direct_returns_list cs ≤ 1)%nat).
Proof.
  destruct (singleExit_function_run f cs stack reps) as (rs & Hrun & Hsil).
  { apply Forall_forall. intros c _. apply singleExit_invariant. }
  exists rs. split; [done|]. rewrite Hsil. intuition lia.
Qed.

(** *** [noBareReturnVoid] *)

Lemma top_of_stack (stack : list bool) :
  negb (bool_decide (length stack = 0%nat))
  && default false (stack !! (length stack - 1)%nat)
  = default false (last stack).
Proof.
  rewrite last_lookup, Nat.sub_1_r.
  destruct stack as [|b stack]; [done|]. by rewrite bool_decide_eq_false_2.
Qed.

Lemma noBareReturnVoid_children (cs : list ast) :
  Forall noBareReturnVoid_spec cs →
  ∀ (stack : list bool) (reps : list report),
    foldl (λ acc c, noBareReturnVoid c acc) (stack, reps) cs
    = (stack,
       reps ++ (NoBare <$>
                foldr (λ c acc,
                         bare_void_returns (default false (last stack)) c ++ acc)
                  [] cs)).
Proof.
  induction 1 as [|c cs Hc _ IH]; intros stack reps; simpl.
  - by rewrite (right_id_L [] (++)).
  - by rewrite Hc, IH, fmap_app, (assoc_L (++)).
Qed.

(** X12.  [noBareReturnVoid] reports exactly the bare [return;] statements whose
    innermost enclosing function is void, in source order, and leaves its
    stack as it found it.  A bare return outside every function, or in a
    function without a [void] return annotation that is not a constructor,
    is never reported. *)
Theorem noBareReturnVoid_reports (n : ast) (stack : list bool)
    (reps : list report) :
  noBareReturnVoid n (stack, reps)
  = (stack,
     reps ++ (NoBare <$> bare_void_returns (default false (last stack)) n)).
Proof.
  revert stack reps. fold (noBareReturnVoid_spec n).
  induction n as [f cs IH | id a IH | id | m cs IH | e IH | cs IH]
    using ast_nested_ind; intros stack reps;
    unfold noBareReturnVoid; simpl; fold noBareReturnVoid.
  - rewrite (noBareReturnVoid_children cs IH). simpl.
    by rewrite removelast_last, last_snoc.
  - rewrite top_of_stack, andb_false_r. by rewrite IH.
  - rewrite top_of_stack, andb_true_r.
    destruct (default false (last stack)); simpl; [done|].
    by rewrite (right_id_L [] (++)).
  - by rewrite (noBareReturnVoid_children cs IH).
  - by rewrite IH.
  - by rewrite (noBareReturnVoid_children cs IH).
Qed.

(** *** [noUnderscoreAccessRule] *)

Lemma noUnderscoreAccess_children (cs : list ast) :
  Forall noUnderscoreAccess_appends cs →
  ∀ reps : list report,
    foldl (λ acc c, noUnderscoreAccess c acc) reps cs
    = reps ++ foldl (λ acc c, noUnderscoreAccess c acc) [] cs.
Proof.
  induction 1 as [|c cs Hc _ IH]; intros reps; simpl.
  - by rewrite (right_id_L [] (++)).
  - rewrite IH, (IH (noUnderscoreAccess c [])), Hc. by rewrite (assoc_L (++)).
Qed.

Lemma noUnderscoreAccess_append (n : ast) : noUnderscoreAccess_appends n.
Proof.
  induction n as [f cs IH | id a IH | id | m cs IH | e IH | cs IH]
    using ast_nested_ind; intros reps;
    unfold noUnderscoreAccess; simpl; fold noUnderscoreAccess.
  - apply (noUnderscoreAccess_children cs IH).
  - apply IH.
  - by rewrite (right_id_L [] (++)).
  - rewrite (noUnderscoreAccess_children cs IH),
      (noUnderscoreAccess_children cs IH (checkMember m)).
    by rewrite (assoc_L (++)).
  - destruct e as [| | m cs | |]; try apply IH.
    rewrite IH, (IH (checkMember m)). by rewrite (assoc_L (++)).
  - apply (noUnderscoreAccess_children cs IH).
Qed.

(** X13.  A member expression that is itself the expression of a
    [ChainExpression] is checked twice, whatever the form of its property:
    the handler of [ChainExpression] checks it, and the walk then enters it
    and its own handler checks it again.  So [obj?._foo], [obj?.['_foo']] and
    the template form get two identical reports where [obj._foo] gets one.  A
    member expression nested deeper in the chain, such as [a?._e] in
    [a?._e.f], is checked once. *)
Theorem chain_expression_checked_twice (m : member_node) (cs : list ast)
    (reps : list report) :
  ∃ rest,
    noUnderscoreAccess (MemberExpression m cs) reps
    = reps ++ checkMember m ++ rest
    ∧ noUnderscoreAccess (ChainExpression (MemberExpression m cs)) reps
      = reps ++ checkMember m ++ checkMember m ++ rest
    ∧ ∀ (outer : member_node) (siblings : list ast),
        noUnderscoreAccess
          (ChainExpression
             (MemberExpression outer (MemberExpression m cs :: siblings))) reps
        = reps ++ checkMember outer ++ checkMember outer
            ++ checkMember m ++ rest
            ++ foldl (λ acc c, noUnderscoreAccess c acc) [] siblings.
Proof.
  exists (foldl (λ acc c, noUnderscoreAccess c acc) [] cs).
  assert (∀ (m' : member_node) (cs' : list ast) (reps' : list report),
            noUnderscoreAccess (MemberExpression m' cs') reps'
            = reps' ++ checkMember m'
                ++ foldl (λ acc c, noUnderscoreAccess c acc) [] cs')
    as Hmember.
  { intros m' cs' reps'.
    unfold noUnderscoreAccess. simpl. fold noUnderscoreAccess.
    rewrite noUnderscoreAccess_children.
    - by rewrite <- (assoc_L (++)).
    - apply Forall_forall. intros c _. apply noUnderscoreAccess_append. }
  assert (∀ (m' : member_node) (cs' : list ast) (reps' : list report),
            noUnderscoreAccess (ChainExpression (MemberExpression m' cs')) reps'
            = noUnderscoreAccess (MemberExpression m' cs')
                (reps' ++ checkMember m'))
    as Hchain by reflexivity.
  split_and!.
  - apply Hmember.
  - rewrite Hchain, Hmember. by rewrite <- (assoc_L (++)).
  - intros outer siblings. rewrite Hchain, Hmember. simpl.
    rewrite noUnderscoreAccess_children
      by (apply Forall_forall; intros c _; apply noUnderscoreAccess_append).
    rewrite Hmember. simpl. by rewrite <- !(assoc_L (++)).
Qed.

(** The three forms under optional chaining, [obj?._foo], [obj?.['_foo']]
    and the template form, and the nested member of [a?._e.f]. *)
Example chain_expression_forms :
  noUnderscoreAccess
    (ChainExpression
       (MemberExpression (mkMember 1 false (Some (Identifier "_foo"))) [])) []
  = [Deny 1 "._foo"; Deny 1 "._foo"]
  ∧ noUnderscoreAccess
      (ChainExpression
         (MemberExpression
            (mkMember 2 true (Some (Literal (LString "_foo")))) [])) []
    = [Deny 2 "['_foo']"; Deny 2 "['_foo']"]
  ∧ noUnderscoreAccess
      (ChainExpression
         (MemberExpression
            (mkMember 3 true (Some (TemplateLiteral 0 [Some "_foo"]))) [])) []
    = [Deny 3 "[`_foo`]"; Deny 3 "[`_foo`]"]
  ∧ noUnderscoreAccess
      (ChainExpression
         (MemberExpression (mkMember 5 false (Some (Identifier "f")))
            [MemberExpression (mkMember 4 false (Some (Identifier "_e"))) []]))
      []
    = [Deny 4 "._e"].
Proof. repeat split; vm_compute; reflexivity. Qed.

(** * The library over objects with accessor properties *)

Section AccessorsFacts.

Variable getter_code : nat → loc → Accessors.store → Accessors.completion value.











(** *** Reading a plain object *)

Lemma lookup_read_keys (ps got : gmap string value) (keys : list string)
    (j : string) :
  foldl (λ acc k, match ps !! k with
                  | Some v => <[k:=v]> acc
                  | None => acc
                  end) got keys !! j
  = if decide (j ∈ keys)
    then match ps !! j with Some v => Some v | None => got !! j end
    else got !! j.
Proof.
  revert got. induction keys as [|k keys IH]; intros got.
  - destruct (decide (j ∈ [])) as [Hin|_]; [|done].
    by apply not_elem_of_nil in Hin.
  - cbn [foldl]. rewrite IH.
    assert (match ps !! k with Some v => <[k:=v]> got | None => got end !! j
            = if decide (j = k)
              then match ps !! j with Some v => Some v | None => got !! j end
              else got !! j) as Hstep.
    { destruct (decide (j = k)) as [->|Hne].
      - destruct (ps !! k); [apply lookup_insert_eq | done].
      - destruct (ps !! k); [by apply lookup_insert_ne | done]. }
    rewrite Hstep.
    destruct (decide (j ∈ keys)) as [Hin|Hnin],
             (decide (j ∈ k :: keys)) as [Hin'|Hnin'],
             (decide (j = k)) as [->|Hne];
      try done.
    + by destruct (ps !! k).
    + destruct Hnin'. by right.
    + destruct Hnin'. by right.
    + apply elem_of_cons in Hin' as [?|?]; done.
    + destruct Hnin'. by left.
Qed.

Lemma read_all_keys (ps : gmap string value) :
  foldl (λ acc k, match ps !! k with
                  | Some v => <[k:=v]> acc
                  | None => acc
                  end) ∅ (map_to_list ps).*1
  = ps.
Proof.
  apply map_eq. intros j. rewrite lookup_read_keys, lookup_empty.
  destruct (ps !! j) as [v|] eqn:Hj.
  - destruct (decide _) as [|Hnin]; [done|]. destruct Hnin.
    apply list_elem_of_fmap. exists (j, v). split; [done|].
    by apply elem_of_map_to_list.
  - by destruct (decide _).
Qed.

Lemma get_properties_plain (keys : list string) (x : loc)
    (got : gmap string value) (s : Accessors.store) (c : cell) :
  s !! x = Some (Accessors.Plain c) →
  Accessors.get_properties getter_code keys x got s
  = Some (Accessors.Returned
            (foldl (λ acc k, match own_props c !! k with
                             | Some v => <[k:=v]> acc
                             | None => acc
                             end) got keys) s).
Proof.
  intros Hx. revert got. induction keys as [|k keys IH]; intros got; simpl.
  - done.
  - rewrite Hx. simpl. destruct (own_props c !! k); simpl; apply IH.
Qed.

Lemma own_properties_plain (x : loc) (s : Accessors.store) (c : cell) :
  s !! x = Some (Accessors.Plain c) →
  Accessors.own_properties getter_code x s
  = Some (Accessors.Returned (own_props c) s).
Proof.
  intros Hx. unfold Accessors.own_properties. rewrite Hx. simpl.
  by rewrite (get_properties_plain _ _ _ _ _ Hx), read_all_keys.
Qed.


(** *** Reading any object, when getters do not write *)



End AccessorsFacts.

Section AccessorsLibrary.

Variable getter_code : nat → loc → Accessors.store → Accessors.completion value.













(** *** The two embeddings agree on plain stores *)

Lemma agree_ret {A : Type} (a : A) : agree (mret a) (mret a).
Proof. by intros h ? ? [= <- <-]. Qed.

Lemma agree_bind {A B : Type} (m : M A) (e : Accessors.E A)
    (f : A → M B) (g : A → Accessors.E B) :
  agree m e → (∀ a, agree (f a) (g a)) → agree (m ≫= f) (e ≫= g).
Proof.
  intros Hm Hf h b h'. unfold mbind at 1, M_bind.
  destruct (m h) as [[a h1]|] eqn:Hrun; [|done]. intros Hfa.
  unfold mbind, Accessors.E_bind. rewrite (Hm _ _ _ Hrun).
  by apply Hf.
Qed.

Lemma agree_fmap {A B : Type} (m : M A) (e : Accessors.E A) (f : A → B) :
  agree m e → agree (f <$> m) (f <$> e).
Proof.
  intros Hm h b h'. unfold fmap at 1, M_fmap.
  destruct (m h) as [[a h1]|] eqn:Hrun; [|done]. intros [= <- <-].
  unfold fmap, Accessors.E_fmap. by rewrite (Hm _ _ _ Hrun).
Qed.

Lemma agree_alloc (c : cell) : agree (alloc c) (Accessors.alloc c).
Proof.
  intros h l h' [= <- <-]. unfold Accessors.alloc, Accessors.plain_store.
  by rewrite length_fmap, fmap_app.
Qed.

Lemma agree_own_properties (x : loc) :
  agree (own_properties x) (Accessors.own_properties getter_code x).
Proof.
  intros h ps h' Hrun. unfold own_properties in Hrun.
  destruct (h !! x) as [c|] eqn:Hx; [|done]. injection Hrun as <- <-.
  apply own_properties_plain. unfold Accessors.plain_store.
  rewrite list_lookup_fmap. exact (f_equal (fmap Accessors.Plain) Hx).
Qed.

Lemma agree_spread_copy (x : loc) :
  agree (spread_copy x) (Accessors.spread_copy getter_code x).
Proof.
  apply agree_bind; [apply agree_own_properties|]. intros ps. apply agree_alloc.
Qed.

Lemma agree_resolveExtensions (mb : Maybe loc) :
  agree (resolveExtensions mb) (Accessors.resolveExtensions getter_code mb).
Proof.
  destruct mb as [b|]; simpl.
  - apply agree_fmap, agree_spread_copy.
  - apply agree_ret.
Qed.

Lemma agree_getExtensionsOrEmpty (mb : Maybe loc) :
  agree (getExtensionsOrEmpty mb)
    (Accessors.getExtensionsOrEmpty getter_code mb).
Proof.
  apply agree_bind; [apply agree_alloc|]. intros empty.
  destruct mb as [b|]; simpl; [apply agree_spread_copy | apply agree_ret].
Qed.

Lemma agree_buildProblem (st : Z) (ti ty i d : string) (mb : Maybe loc) :
  agree (buildProblem st ti ty i d mb)
    (Accessors.buildProblem getter_code st ti ty i d mb).
Proof.
  apply agree_bind; [apply agree_resolveExtensions|]. intros ext.
  apply agree_ret.
Qed.

Lemma agree_extensionsWithErrors (e : loc) (mb : Maybe loc) :
  agree (extensionsWithErrors e mb)
    (Accessors.extensionsWithErrors getter_code e mb).
Proof.
  apply agree_bind; [apply agree_getExtensionsOrEmpty|]. intros rest.
  apply agree_bind; [apply agree_own_properties|]. intros ps.
  apply agree_alloc.
Qed.

(** On a store of plain objects the accessor-aware embedding of every
    constructor returns what the data-property embedding returns. *)
Lemma agree_run (call : Call) :
  agree (run call) (Accessors.run getter_code call).
Proof.
  destruct call as [c i t d e mb | c i t d mb]; simpl.
  - destruct c; simpl;
      (apply agree_bind; [apply agree_extensionsWithErrors|]);
      intros ext; apply agree_buildProblem.
  - destruct c; simpl; apply agree_buildProblem.
Qed.

End AccessorsLibrary.

(** * Claims that depend on aliasing and on accessors *)

Lemma mapM_ext_Forall {A B : Type} (f g : A → option B) (xs : list A) :
  Forall (λ x, f x = g x) xs → mapM f xs = mapM g xs.
Proof. induction 1 as [|x xs Hx _ IH]; simpl; [done|]. by rewrite Hx, IH. Qed.

(** A write to an object that the walk of a value never comes to does not
    change what the value denotes. *)
Lemma avoids_insert (fuel : nat) (h : heap) (b : loc) (written : cell)
    (v : value) :
  avoids fuel h b v →
  reify fuel (<[b := written]> h) v = reify fuel h v.
Proof.
  revert v. induction fuel as [|n IH]; intros [] Hav; simpl in *; try done.
  destruct Hav as [Hne Hav]. unfold loc in *.
  rewrite list_lookup_insert_ne by congruence.
  destruct (h !! l) as [[ps|xs]|]; [| |done].
  - do 2 f_equal. apply map_fmap_ext. intros k w Hk. apply IH.
    exact (Hav k w Hk).
  - f_equal. apply mapM_ext_Forall.
    eapply Forall_impl; [exact Hav|]. intros w. apply IH.
Qed.

(** C7, as the specification states it: for every constructor, mutating the
    object passed as the extension bag after construction does not change
    the record's [extensions].  It fails when the bag is reachable from the
    values that [extensions] holds: [o = {"a": 1}] passed both as
    field-errors map and as bag to [badRequest] gives
    [extensions = {errors: o, a: 1}], and setting [o.a] to [2] afterwards
    turns [extensions.errors.a] into [2]. *)
Lemma C7_shared_object_counterexample :
  ¬ (∀ (call : Call) (h : heap) (b : loc) (p : Problem) (h' : heap)
       (written : cell) (fuel : nat),
       call_bag call = some b →
       run call h = Some (p, h') →
       extensions_json fuel (<[b := written]> h') p = extensions_json fuel h' p).
Proof.
  intros Hclaim.
  pose proof (Hclaim (CallWithErrors BadRequest "instance" "type" "detail"
                        0%nat (some 0%nat))
                shared_heap 0%nat _ _ (CRecord {[ "a" := VNum 2 ]}) 2%nat
                eq_refl eq_refl) as Heq.
  apply (f_equal (λ o, match o with
                       | Some (JObj m) => m !! "errors"
                       | _ => None
                       end)) in Heq.
  vm_compute in Heq. discriminate Heq.
Qed.

(** C7, amended.  For every constructor called with a present extension bag
    [b]: the record's [extensions] is a new object, different from [b] and
    from every object the caller had, that holds every key of the bag with
    the value the bag had at construction, and besides them only the
    ["errors"] entry of the four constructors with field errors.  Whatever
    the caller later writes into [b], that mapping is unchanged; and what
    [extensions] denotes structurally is unchanged too, provided [b] is not
    reachable from the values the mapping holds. *)
Theorem C7_bag_is_copied (call : Call) (h : heap) (b : loc) (bag : cell) :
  call_bag call = some b →
  h !! b = Some bag →
  ∃ p h' l m,
    run call h = Some (p, h')
    ∧ extensions p = Some l
    ∧ h' !! l = Some (CRecord m)
    ∧ (∀ k v, own_props bag !! k = Some v → m !! k = Some v)
    ∧ (∀ k, k ≠ "errors" → m !! k = own_props bag !! k)
    ∧ (¬ errors_supplied call → m = own_props bag)
    ∧ l ≠ b
    ∧ h !! l = None
    ∧ (∀ written : cell, <[b := written]> h' !! l = Some (CRecord m))
    ∧ (∀ (fuel : nat) (written : cell),
         map_Forall (λ _ v, avoids fuel h' b v) m →
         extensions_json (S fuel) (<[b := written]> h') p
         = extensions_json (S fuel) h' p).
Proof.
  intros Hbag Hb.
  destruct (run_outcome call h) as (p & h' & Hrun & Hout).
  { rewrite Hbag. by exists bag. }
  assert (∃ m, expected_extensions h call = Some m
               ∧ (∀ k v, own_props bag !! k = Some v → m !! k = Some v)
               ∧ (∀ k, k ≠ "errors" → m !! k = own_props bag !! k)
               ∧ (¬ errors_supplied call → m = own_props bag))
    as (m & Hm & Hkeep & Honly & Hplain).
  { destruct call as [c i t d e mb | c i t d mb]; simpl in *; subst;
      simpl; rewrite Hb; simpl; eexists; (split; [done|]).
    - split_and!.
      + intros k v Hk. by apply lookup_union_Some_l.
      + intros k Hk. rewrite lookup_union_l; [done|].
        by apply lookup_singleton_ne.
      + by intros [].
    - done. }
  destruct (outcome_extensions _ _ _ _ _ Hout Hm) as (l & Hl & Hge & Hcell).
  pose proof (lookup_lt_Some _ _ _ Hb) as Hlt.
  assert (l ≠ b) as Hne by lia.
  assert (∀ written : cell, <[b := written]> h' !! l = Some (CRecord m))
    as Hframe.
  { intros written. by rewrite list_lookup_insert_ne by congruence. }
  exists p, h', l, m. split_and!; try done.
  - by apply lookup_ge_None.
  - intros fuel written Hav. unfold extensions_json. rewrite Hl.
    rewrite (reify_record _ _ _ _ (Hframe written)),
      (reify_record _ _ _ _ Hcell).
    do 2 f_equal. apply map_fmap_ext. intros k v Hk.
    apply avoids_insert. exact (Hav k v Hk).
Qed.

Lemma C7_bag_is_copied_witness :
  call_bag (CallWithErrors BadRequest "instance" "type" "detail" 1%nat
              (some 2%nat)) = some 2%nat
  ∧ merge_heap !! 2%nat = Some (CRecord {[ "x" := VNum 1 ]})
  ∧ ∃ p h' l m,
      run (CallWithErrors BadRequest "instance" "type" "detail" 1%nat
             (some 2%nat)) merge_heap = Some (p, h')
      ∧ extensions p = Some l
      ∧ h' !! l = Some (CRecord m)
      ∧ (∀ k v, own_props (CRecord {[ "x" := VNum 1 ]}) !! k = Some v →
                m !! k = Some v)
      ∧ (∀ k, k ≠ "errors" →
              m !! k = own_props (CRecord {[ "x" := VNum 1 ]}) !! k)
      ∧ (¬ errors_supplied (CallWithErrors BadRequest "instance" "type"
                              "detail" 1%nat (some 2%nat)) →
         m = own_props (CRecord {[ "x" := VNum 1 ]}))
      ∧ l ≠ 2%nat
      ∧ merge_heap !! l = None
      ∧ (∀ written : cell, <[2%nat := written]> h' !! l = Some (CRecord m))
      ∧ (∀ (fuel : nat) (written : cell),
           map_Forall (λ _ v, avoids fuel h' 2%nat v) m →
           extensions_json (S fuel) (<[2%nat := written]> h') p
           = extensions_json (S fuel) h' p).
Proof.
  split; [reflexivity|]. split; [reflexivity|].
  apply (C7_bag_is_copied
           (CallWithErrors BadRequest "instance" "type" "detail" 1%nat
              (some 2%nat))
           merge_heap 2%nat (CRecord {[ "x" := VNum 1 ]}));
    reflexivity.
Defined.

(** The merge example under a later write to the bag: the bag [{"x": 1}] is
    not reachable from the values of [extensions], and after the caller sets
    [x] to [2] in it the record still shows
    [{ errors: {"a.b": ["m1","m2"]}, x: 1 }]. *)
Example bag_write_example :
  ∃ p h',
    run (CallWithErrors BadRequest "instance" "type" "detail" 1%nat
           (some 2%nat)) merge_heap = Some (p, h')
    ∧ extensions_json 3 (<[2%nat := CRecord {[ "x" := VNum 2 ]}]> h') p
      = Some (JObj {[ "errors" := JObj {[ "a.b" := JArr [JStr "m1"; JStr "m2"] ]};
                      "x" := JNum 1 ]}).
Proof. eexists _, _. split; [reflexivity|]. vm_compute. reflexivity. Qed.

(** In that example the bag, at reference [2], is indeed not reachable from
    the values that [extensions] holds. *)
Example bag_not_reachable_example :
  ∃ p h' l,
    run (CallWithErrors BadRequest "instance" "type" "detail" 1%nat
           (some 2%nat)) merge_heap = Some (p, h')
    ∧ extensions p = Some l
    ∧ h' !! l
      = Some (CRecord (<[ "errors" := VRef 1%nat ]> {[ "x" := VNum 1 ]}))
    ∧ map_Forall (λ _ v, avoids 2 h' 2%nat v)
        (<[ "errors" := VRef 1%nat ]> {[ "x" := VNum 1 ]} : gmap string value).
Proof.
  eexists _, _, _. split; [reflexivity|]. split; [reflexivity|].
  split; [vm_compute; reflexivity|].
  apply map_Forall_insert_2; [|by apply map_Forall_singleton].
  split; [done|]. apply map_Forall_singleton.
  split; [done|]. by repeat constructor.
Qed.


(** What the two kinds of constructor do on that bag: both throw what the
    getter throws; [badRequest] has by then allocated the empty default of
    [getExtensionsOrEmpty]. *)
Example throwing_getter_example :
  Accessors.conflict Accessors.throwing_getter "instance" "type" "detail"
    (some 0%nat) [Accessors.WithAccessors [("x", Accessors.Getter 0)]]
  = Some (Accessors.Threw (VStr "boom")
            [Accessors.WithAccessors [("x", Accessors.Getter 0)]])
  ∧ Accessors.badRequest Accessors.throwing_getter "instance" "type" "detail"
      0%nat (some 0%nat) [Accessors.WithAccessors [("x", Accessors.Getter 0)]]
    = Some (Accessors.Threw (VStr "boom")
              [Accessors.WithAccessors [("x", Accessors.Getter 0)];
               Accessors.Plain (CRecord ∅)]).
Proof. split; vm_compute; reflexivity. Qed.




